(** * Encrypted ledger of [app.py]: a shallow embedding and its properties

    The Flask application keeps one row per user; the balance column holds a
    serialized CKKS ciphertext.  Deposits, withdrawals and transfers are
    ciphertext additions and subtractions, the sufficiency check decrypts the
    balance and rounds it to two digits.

    Python floats that carry money are modelled as rationals ([Q]) extended
    with the three non-finite values; the TenSEAL library is an interface
    ([TenSEAL]) with the laws the development relies on, and [Plain] is a
    concrete noisy instance of it on which examples are evaluated. *)

From Stdlib Require Import ZArith QArith Qabs Qround Lqa Lia List String Bool.
From Stdlib.Strings Require Import Byte.
Import ListNotations.
Open Scope Q_scope.

(** ** Python values *)

Definition bytes := list byte.

(** A Python [float]: [float(request.form['amount'])] also accepts the
    strings "inf", "-inf" and "nan". *)
Inductive pyfloat : Type :=
| Finite (q : Q)
| PosInf
| NegInf
| NaN.

(** [a > b] on floats. *)
Definition float_gt (a b : pyfloat) : bool :=
  match a, b with
  | NaN, _ => false
  | _, NaN => false
  | PosInf, PosInf => false
  | PosInf, _ => true
  | NegInf, _ => false
  | Finite _, PosInf => false
  | Finite _, NegInf => true
  | Finite x, Finite y => negb (Qle_bool x y)
  end.

(** [a >= b] on floats (IEEE: every comparison with NaN is false). *)
Definition float_ge (a b : pyfloat) : bool :=
  match a, b with
  | NaN, _ => false
  | _, NaN => false
  | _, NegInf => true
  | PosInf, _ => true
  | NegInf, _ => false
  | Finite _, PosInf => false
  | Finite x, Finite y => Qle_bool y x
  end.

(** [round(x)] to the nearest integer, ties to the even one. *)
Definition round_half_even (q : Q) : Z :=
  let f := Qfloor q in
  match Qcompare (q - inject_Z f) (1 # 2) with
  | Lt => f
  | Gt => (f + 1)%Z
  | Eq => if Z.even f then f else (f + 1)%Z
  end.

(** [round(x, 2)]. *)
Definition round2 (q : Q) : Q := Qred (inject_Z (round_half_even (q * 100)) / 100).

(** Exceptions that end a request before [db.session.commit()]. *)
Inductive exn : Type :=
| AttributeError        (* attribute read on [None] *)
| TypeError             (* [None] given where bytes are expected *)
| DeserializationError  (* bytes that are no ciphertext *)
| EncodingError.        (* a value CKKS cannot encode *)

Inductive result (A : Type) : Type :=
| Ok (a : A)
| Raise (e : exn).
Arguments Ok {A} a.
Arguments Raise {A} e.

Definition bind {A B : Type} (r : result A) (k : A -> result B) : result B :=
  match r with
  | Ok a => k a
  | Raise e => Raise e
  end.

Notation "x <- r ;; k" := (bind r (fun x => k))
  (at level 61, r at next level, right associativity).

(** ** The TenSEAL interface

    Modelled from the spec: the CKKS library is not part of the repository.
    Encryption is randomised, so it takes the randomness as an argument
    ([seed]).  The context fixes which values can be encoded at all
    ([encodable]; [ckks_vector] raises on the others) and a smaller range of
    magnitudes, up to [limit], inside which the approximation contract
    holds: there an encryption decrypts to its value, and a homomorphic sum
    or difference to the sum or difference of what its operands decrypt to,
    each up to [tolerance].  Outside that range nothing is promised: sums
    may wrap and large values lose their cents.  A serialized ciphertext is
    never empty and deserializes to itself. *)
Class TenSEAL : Type := {
  ciphertext : Type;
  seed : Type;
  tolerance : Q;
  limit : Q;
  encodable : Q -> bool;
  encrypt : seed -> Q -> ciphertext;
  decrypt : ciphertext -> Q;
  ct_add : ciphertext -> ciphertext -> ciphertext;
  ct_sub : ciphertext -> ciphertext -> ciphertext;
  serialize : ciphertext -> bytes;
  deserialize : bytes -> option ciphertext;
  deserialize_serialize : forall c, deserialize (serialize c) = Some c;
  serialize_nonempty : forall c, serialize c <> [];
  limit_nonneg : 0 <= limit;
  encodable_in_range : forall q, Qabs q <= limit -> encodable q = true;
  encrypt_close : forall s q,
    Qabs q <= limit -> Qabs (decrypt (encrypt s q) - q) <= tolerance;
  decrypt_add : forall a b,
    Qabs (decrypt a) <= limit -> Qabs (decrypt b) <= limit ->
    Qabs (decrypt a + decrypt b) <= limit ->
    Qabs (decrypt (ct_add a b) - (decrypt a + decrypt b)) <= tolerance;
  decrypt_sub : forall a b,
    Qabs (decrypt a) <= limit -> Qabs (decrypt b) <= limit ->
    Qabs (decrypt a - decrypt b) <= limit ->
    Qabs (decrypt (ct_sub a b) - (decrypt a - decrypt b)) <= tolerance
}.

(** ** The [User] table *)

Record User : Type := mkUser {
  id : Z;
  username : string;
  password : string;
  encrypted_balance : option bytes
}.

Definition database := list User.

(** [User.query.get(k)] *)
Definition query_get (k : Z) (db : database) : option User :=
  find (fun u => Z.eqb (id u) k) db.

(** [User.query.filter_by(username=name).first()] *)
Definition query_first_by_username (name : string) (db : database) : option User :=
  find (fun u => String.eqb (username u) name) db.

Definition with_balance (blob : bytes) (u : User) : User :=
  mkUser (id u) (username u) (password u) (Some blob).

(** [obj.encrypted_balance = blob] on the session's object for primary key
    [k].  The session has one object per primary key, so two names for the
    same row write to the same place. *)
Definition set_encrypted_balance (k : Z) (blob : bytes) (db : database) : database :=
  map (fun u => if Z.eqb (id u) k then with_balance blob u else u) db.

(** The key SQLite gives to a new row. *)
Definition next_id (db : database) : Z :=
  1 + fold_right Z.max 0%Z (map id db).

(** What a POST request does to the table. *)
Inductive outcome : Type :=
| LoginRequired               (* no ['user_id'] in the session: redirect *)
| Committed (db' : database)  (* [db.session.commit()] ran *)
| Refused                     (* error flash, nothing written *)
| Crashed (e : exn).          (* exception before the commit *)

Definition persisted (db : database) (o : outcome) : database :=
  match o with
  | Committed db' => db'
  | _ => db
  end.

Definition finish (r : result database) : outcome :=
  match r with
  | Ok db' => Committed db'
  | Raise e => Crashed e
  end.

Section Ledger.
Context {HE : TenSEAL}.

(** The werkzeug password hash. *)
Variable generate_password_hash : string -> string.

(** [ts.ckks_vector_from(context, blob)] *)
Definition ckks_vector_from (blob : option bytes) : result ciphertext :=
  match blob with
  | None => Raise TypeError
  | Some b =>
    match deserialize b with
    | Some c => Ok c
    | None => Raise DeserializationError
    end
  end.

(** [ts.ckks_vector(context, [x])] *)
Definition ckks_vector (s : seed) (x : pyfloat) : result ciphertext :=
  match x with
  | Finite q => if encodable q then Ok (encrypt s q) else Raise EncodingError
  | _ => Raise EncodingError
  end.

(** The [balance] property of [User]: an absent or empty blob is falsy. *)
Definition balance (u : User) : result Q :=
  match encrypted_balance u with
  | None => Ok 0
  | Some [] => Ok 0
  | Some b =>
    encrypted <- ckks_vector_from (Some b) ;;
    Ok (round2 (decrypt encrypted))
  end.

(** The setter of [balance]; [value] is a finite float. *)
Definition balance_set (s : seed) (value : Q) (u : User) : result User :=
  encrypted <- ckks_vector s (Finite value) ;;
  Ok (with_balance (serialize encrypted) u).

(** The decrypted value of the stored blob before rounding; [None] when
    there is no ciphertext to decrypt. *)
Definition raw_balance (u : User) : option Q :=
  match encrypted_balance u with
  | None => None
  | Some b => option_map decrypt (deserialize b)
  end.

(** POST /register *)
Definition register (s : seed) (name pass : string) (db : database) : outcome :=
  match query_first_by_username name db with
  | Some _ => Refused
  | None =>
    let new_user := mkUser (next_id db) name (generate_password_hash pass) None in
    finish (stored <- balance_set s 0 new_user ;; Ok (db ++ [stored]))
  end.

(** POST /transfer *)
Definition transfer (s : seed) (session_user : option Z) (amount : pyfloat)
    (recipient_username : string) (db : database) : outcome :=
  match session_user with
  | None => LoginRequired
  | Some uid =>
    let sender := query_get uid db in
    match query_first_by_username recipient_username db with
    | None => Refused
    | Some recipient =>
      match sender with
      | None => Crashed AttributeError
      | Some sender =>
        match balance sender with
        | Raise e => Crashed e
        | Ok b =>
          if float_ge (Finite b) amount then
            finish (
              sender_balance <- ckks_vector_from (encrypted_balance sender) ;;
              recipient_balance <- ckks_vector_from (encrypted_balance recipient) ;;
              transfer_amount <- ckks_vector s amount ;;
              let new_sender_balance := ct_sub sender_balance transfer_amount in
              let new_recipient_balance := ct_add recipient_balance transfer_amount in
              let db1 := set_encrypted_balance (id sender) (serialize new_sender_balance) db in
              Ok (set_encrypted_balance (id recipient) (serialize new_recipient_balance) db1))
          else Refused
        end
      end
    end
  end.

(** POST /deposit *)
Definition deposit (s : seed) (session_user : option Z) (amount : pyfloat)
    (db : database) : outcome :=
  match session_user with
  | None => LoginRequired
  | Some uid =>
    match query_get uid db with
    | None => Crashed AttributeError
    | Some user =>
      finish (
        current_balance <- ckks_vector_from (encrypted_balance user) ;;
        deposit_amount <- ckks_vector s amount ;;
        let new_balance := ct_add current_balance deposit_amount in
        Ok (set_encrypted_balance (id user) (serialize new_balance) db))
    end
  end.

(** POST /withdraw *)
Definition withdraw (s : seed) (session_user : option Z) (amount : pyfloat)
    (db : database) : outcome :=
  match session_user with
  | None => LoginRequired
  | Some uid =>
    match query_get uid db with
    | None => Crashed AttributeError
    | Some user =>
      match balance user with
      | Raise e => Crashed e
      | Ok b =>
        if float_ge (Finite b) amount then
          finish (
            current_balance <- ckks_vector_from (encrypted_balance user) ;;
            withdraw_amount <- ckks_vector s amount ;;
            let new_balance := ct_sub current_balance withdraw_amount in
            Ok (set_encrypted_balance (id user) (serialize new_balance) db))
        else Refused
      end
    end
  end.

(** What a row adds to the ledger's total: its decrypted balance, and
    nothing when it has no ciphertext. *)
Definition decrypted (u : User) : Q :=
  match raw_balance u with
  | Some q => q
  | None => 0
  end.

(** The sum of the decrypted balances of all rows. *)
Definition total_balance (db : database) : Q :=
  fold_right (fun u acc => decrypted u + acc) 0 db.

(** Every row carries a ciphertext: what registration establishes and the
    three operations keep. *)
Definition has_ciphertext (u : User) : Prop :=
  exists c, encrypted_balance u = Some (serialize c).

Definition ledger_ok (db : database) : Prop :=
  NoDup (map id db) /\ Forall has_ciphertext db.

(** A POST request with what the session and the form carry. *)
Inductive request : Type :=
| Register (name pass : string)
| Deposit (session_user : option Z) (amount : pyfloat)
| Withdraw (session_user : option Z) (amount : pyfloat)
| Transfer (session_user : option Z) (amount : pyfloat) (recipient_username : string).

Definition handle (s : seed) (r : request) (db : database) : outcome :=
  match r with
  | Register name pass => register s name pass db
  | Deposit su amount => deposit s su amount db
  | Withdraw su amount => withdraw s su amount db
  | Transfer su amount name => transfer s su amount name db
  end.

(** Requests served one after the other, each with its own randomness. *)
Fixpoint replay (rs : list (seed * request)) (db : database) : database :=
  match rs with
  | [] => db
  | (s, r) :: rs' => replay rs' (persisted db (handle s r db))
  end.

(** What a served request books on the ledger: the amount of a committed
    deposit, minus the amount of a committed withdrawal. *)
Definition booked (r : request) (o : outcome) : Q :=
  match o, r with
  | Committed _, Deposit _ (Finite q) => q
  | Committed _, Withdraw _ (Finite q) => - q
  | _, _ => 0
  end.

(** The room a balance and an amount need within the range of the
    approximation contract: the balance, the noisy amount and their sum or
    difference all stay below [limit]. *)
Definition fits (c : ciphertext) (q : Q) : Prop :=
  Qabs (decrypt c) + Qabs q + tolerance <= limit.

(** The error a served request may add to the total: the noise of one
    encryption and of one homomorphic operation for a committed deposit or
    withdrawal, of two homomorphic operations for a committed transfer. *)
Definition slack (r : request) (o : outcome) : Q :=
  match o, r with
  | Committed _, Register _ _ => 0
  | Committed _, _ => tolerance + tolerance
  | _, _ => 0
  end.

Fixpoint booked_all (rs : list (seed * request)) (db : database) : Q :=
  match rs with
  | [] => 0
  | (s, r) :: rs' =>
    let o := handle s r db in booked r o + booked_all rs' (persisted db o)
  end.

Fixpoint slack_all (rs : list (seed * request)) (db : database) : Q :=
  match rs with
  | [] => 0
  | (s, r) :: rs' =>
    let o := handle s r db in slack r o + slack_all rs' (persisted db o)
  end.

(** A request on a fixed set of accounts that is no transfer to oneself. *)
Definition between_accounts (r : request) (db : database) : Prop :=
  match r with
  | Register _ _ => False
  | Transfer (Some uid) _ name =>
    forall u, query_first_by_username name db = Some u -> id u <> uid
  | _ => True
  end.

Fixpoint all_between_accounts (rs : list (seed * request)) (db : database) : Prop :=
  match rs with
  | [] => True
  | (s, r) :: rs' =>
    between_accounts r db /\ all_between_accounts rs' (persisted db (handle s r db))
  end.

(** The balance in row [k], when there is one, leaves room for [q]. *)
Definition row_fits (k : Z) (q : Q) (db : database) : Prop :=
  forall u c, query_get k db = Some u ->
    encrypted_balance u = Some (serialize c) -> fits c q.

(** A request whose amount and balances stay within the range of the
    approximation contract. *)
Definition request_fits (r : request) (db : database) : Prop :=
  match r with
  | Deposit (Some uid) (Finite q) => row_fits uid q db
  | Withdraw (Some uid) (Finite q) => row_fits uid q db
  | Transfer (Some uid) (Finite q) name =>
    row_fits uid q db /\
    forall u, query_first_by_username name db = Some u -> row_fits (id u) q db
  | _ => True
  end.

Fixpoint all_fit (rs : list (seed * request)) (db : database) : Prop :=
  match rs with
  | [] => True
  | (s, r) :: rs' =>
    request_fits r db /\ all_fit rs' (persisted db (handle s r db))
  end.

(** What identifies the rows of a table: everything but the balances. *)
Definition identities (db : database) : list (Z * string * string) :=
  map (fun u => (id u, username u, password u)) db.

End Ledger.

(** ** Sessions: login, logout and the dashboard *)

Section Web.
Context {HE : TenSEAL}.

(** The werkzeug password hash and its check. *)
Variable generate_password_hash : string -> string.
Variable check_password_hash : string -> string -> bool.

(** POST /login: what [session['user_id']] holds afterwards.  A failed login
    only flashes an error. *)
Definition login (name pass : string) (session_user : option Z) (db : database)
    : option Z :=
  match query_first_by_username name db with
  | Some user =>
    if check_password_hash (password user) pass then Some (id user)
    else session_user
  | None => session_user
  end.

(** GET /logout: [session.pop('user_id', None)] *)
Definition logout (session_user : option Z) : option Z := None.

(** GET /dashboard: a redirect, or the template with the session's user. *)
Inductive page : Type :=
| RedirectLogin
| DashboardPage (user : option User).

Definition dashboard (session_user : option Z) (db : database) : page :=
  match session_user with
  | None => RedirectLogin
  | Some uid => DashboardPage (query_get uid db)
  end.

(** The requests that change something; each browser has its own session
    cookie. *)
Inductive http : Type :=
| PostRegister (name pass : string)
| PostLogin (name pass : string)
| GetLogout
| PostTransfer (amount : pyfloat) (recipient_username : string)
| PostDeposit (amount : pyfloat)
| PostWithdraw (amount : pyfloat).

Record world : Type := mkWorld {
  cookies : nat -> option Z;
  table : database
}.

Definition set_cookie (client : nat) (v : option Z) (w : world) : world :=
  mkWorld (fun c => if Nat.eqb c client then v else cookies w c) (table w).

Definition set_table (db : database) (w : world) : world :=
  mkWorld (cookies w) db.

Definition serve (client : nat) (s : seed) (h : http) (w : world) : world :=
  let su := cookies w client in
  let db := table w in
  match h with
  | PostRegister name pass =>
    set_table (persisted db (register generate_password_hash s name pass db)) w
  | PostLogin name pass => set_cookie client (login name pass su db) w
  | GetLogout => set_cookie client (logout su) w
  | PostTransfer amount name =>
    set_table (persisted db (transfer s su amount name db)) w
  | PostDeposit amount => set_table (persisted db (deposit s su amount db)) w
  | PostWithdraw amount => set_table (persisted db (withdraw s su amount db)) w
  end.

Fixpoint browse (trace : list (nat * seed * http)) (w : world) : world :=
  match trace with
  | [] => w
  | (client, s, h) :: trace' => browse trace' (serve client s h w)
  end.

(** The application after [db.create_all()]: no row, no session. *)
Definition start : world := mkWorld (fun _ => None) [].

(** What every world reached from [start] satisfies: the table is a ledger
    with one row per username, and a session names a row of the table. *)
Definition world_ok (w : world) : Prop :=
  ledger_ok (table w) /\
  NoDup (map username (table w)) /\
  forall client uid, cookies w client = Some uid -> In uid (map id (table w)).

End Web.

(** ** A concrete instance of the interface

    [Plain] keeps the noisy payload itself as the ciphertext: encryption adds
    a noise of at most 1/10000 chosen by the seed, the homomorphic operations
    are rational arithmetic, and a ciphertext is serialized as text. *)
Module Plain.

Fixpoint put_pos (p : positive) : bytes :=
  match p with
  | xH => [x3b]
  | xO p' => x30 :: put_pos p'
  | xI p' => x31 :: put_pos p'
  end.

Fixpoint get_pos (l : bytes) : option (positive * bytes) :=
  match l with
  | x3b :: r => Some (xH, r)
  | x30 :: r =>
    match get_pos r with
    | Some (p, r') => Some (xO p, r')
    | None => None
    end
  | x31 :: r =>
    match get_pos r with
    | Some (p, r') => Some (xI p, r')
    | None => None
    end
  | _ => None
  end.

Definition put_Z (z : Z) : bytes :=
  match z with
  | Z0 => [x7a]
  | Zpos p => x2b :: put_pos p
  | Zneg p => x2d :: put_pos p
  end.

Definition get_Z (l : bytes) : option (Z * bytes) :=
  match l with
  | x7a :: r => Some (0%Z, r)
  | x2b :: r =>
    match get_pos r with
    | Some (p, r') => Some (Zpos p, r')
    | None => None
    end
  | x2d :: r =>
    match get_pos r with
    | Some (p, r') => Some (Zneg p, r')
    | None => None
    end
  | _ => None
  end.

Definition put_Q (q : Q) : bytes := put_Z (Qnum q) ++ put_pos (Qden q).

Definition get_Q (l : bytes) : option Q :=
  match get_Z l with
  | Some (n, r) =>
    match get_pos r with
    | Some (d, []) => Some (n # d)
    | _ => None
    end
  | None => None
  end.

Definition noise (s : Z) : Q := (s mod 201 - 100) # 1000000.

(** Values beyond 2^99 cannot be encoded; the approximation contract is
    kept up to a thousand millions. *)
Definition largest : Q := inject_Z (2 ^ 99).

Definition can_encode (q : Q) : bool := Qle_bool (Qabs q) largest.

Definition range : Q := 1000000000.

Definition enc (s : Z) (q : Q) : Q := Qred (q + noise s).

Definition plus (a b : Q) : Q := Qred (a + b).

Definition minus (a b : Q) : Q := Qred (a - b).

Lemma get_put_pos (p : positive) (r : bytes) : get_pos (put_pos p ++ r) = Some (p, r).
Proof.
  induction p as [p IH | p IH | ]; simpl; try rewrite IH; reflexivity.
Qed.

Lemma get_put_Z (z : Z) (r : bytes) : get_Z (put_Z z ++ r) = Some (z, r).
Proof.
  destruct z as [ | p | p]; simpl; try rewrite get_put_pos; reflexivity.
Qed.

Lemma get_put_Q (q : Q) : get_Q (put_Q q) = Some q.
Proof.
  unfold get_Q, put_Q. rewrite get_put_Z.
  rewrite <- (app_nil_r (put_pos (Qden q))), get_put_pos.
  destruct q; reflexivity.
Qed.

Lemma put_Q_nonempty (q : Q) : put_Q q <> [].
Proof.
  unfold put_Q. destruct (Qnum q); discriminate.
Qed.

Lemma noise_bound (s : Z) : Qabs (noise s) <= 1 # 10000.
Proof.
  apply Qabs_Qle_condition. unfold noise, Qle, Qopp. simpl.
  pose proof (Z.mod_pos_bound s 201 eq_refl). lia.
Qed.

Lemma enc_close (s : Z) (q : Q) : Qabs (enc s q - q) <= 1 # 10000.
Proof.
  assert (E : enc s q - q == noise s).
  { unfold enc. rewrite Qred_correct. ring. }
  rewrite E. apply noise_bound.
Qed.

Lemma plus_exact (a b : Q) : plus a b == a + b.
Proof. apply Qred_correct. Qed.

Lemma minus_exact (a b : Q) : minus a b == a - b.
Proof. apply Qred_correct. Qed.

Lemma range_nonneg : 0 <= range.
Proof. discriminate. Qed.

Lemma can_encode_in_range (q : Q) : Qabs q <= range -> can_encode q = true.
Proof.
  intros H. apply Qle_bool_iff. apply Qle_trans with (1 := H). discriminate.
Qed.

Lemma enc_close_in_range (s : Z) (q : Q) :
  Qabs q <= range -> Qabs (enc s q - q) <= 1 # 10000.
Proof. intros _. apply enc_close. Qed.

Lemma plus_close (a b : Q) :
  Qabs a <= range -> Qabs b <= range -> Qabs (a + b) <= range ->
  Qabs (plus a b - (a + b)) <= 1 # 10000.
Proof.
  intros _ _ _. assert (E : plus a b - (a + b) == 0).
  { rewrite plus_exact. ring. }
  rewrite E. discriminate.
Qed.

Lemma minus_close (a b : Q) :
  Qabs a <= range -> Qabs b <= range -> Qabs (a - b) <= range ->
  Qabs (minus a b - (a - b)) <= 1 # 10000.
Proof.
  intros _ _ _. assert (E : minus a b - (a - b) == 0).
  { rewrite minus_exact. ring. }
  rewrite E. discriminate.
Qed.

Definition scheme : TenSEAL :=
  Build_TenSEAL Q Z (1 # 10000) range can_encode enc (fun c => c) plus minus
    put_Q get_Q get_put_Q put_Q_nonempty range_nonneg can_encode_in_range
    enc_close_in_range plus_close minus_close.

(** Example data: the password hash is left as the identity, seed 100 gives
    no noise. *)
Definition hash (pass : string) : string := pass.

Definition row (k : Z) (name : string) (q : Q) : User :=
  mkUser k name "pw" (Some (put_Q q)).

Definition two_accounts (a b : Q) : database :=
  [row 1 "alice" a; row 2 "bob" b].

Definition opened : list (Z * request) :=
  [(100%Z, Register "alice" "pw"); (100%Z, Register "bob" "pw")].

(** Both accounts opened, then 99.996 deposited on the first. *)
Definition funded : database :=
  replay (HE := scheme) hash
    (opened ++ [(100%Z, Deposit (Some 1%Z) (Finite (99996 # 1000)))]) [].

(** The check that goes with [hash]. *)
Definition check (stored pass : string) : bool := String.eqb stored pass.

End Plain.

(** ** Rounding *)

Ltac split_inject :=
  rewrite ?inject_Z_plus in *; change (inject_Z 1) with 1 in *.

Lemma round_half_even_close (q : Q) :
  Qabs (inject_Z (round_half_even q) - q) <= 1 # 2.
Proof.
  pose proof (Qfloor_le q) as Hlo.
  pose proof (Qlt_floor q) as Hhi.
  apply Qabs_Qle_condition.
  unfold round_half_even.
  destruct (Qcompare (q - inject_Z (Qfloor q)) (1 # 2)) eqn:E.
  - apply Qeq_alt in E.
    destruct (Z.even (Qfloor q)); split_inject; split; lra.
  - apply Qlt_alt in E. split_inject. split; lra.
  - apply Qgt_alt in E. split_inject. split; lra.
Qed.

Lemma round2_scaled (q : Q) :
  round2 q == inject_Z (round_half_even (q * 100)) * (1 # 100).
Proof. unfold round2. rewrite Qred_correct. field. Qed.

Lemma round2_close (q : Q) : Qabs (round2 q - q) <= 1 # 200.
Proof.
  pose proof (round_half_even_close (q * 100)) as H.
  apply Qabs_Qle_condition in H. apply Qabs_Qle_condition.
  rewrite round2_scaled.
  set (n := inject_Z (round_half_even (q * 100))) in *.
  split; lra.
Qed.

Lemma round_half_even_small (q : Q) :
  Qabs q <= 1 # 2 -> round_half_even q = 0%Z.
Proof.
  intros H. apply Qabs_Qle_condition in H.
  pose proof (Qfloor_le q) as Hlo.
  pose proof (Qlt_floor q) as Hhi.
  assert (Hf : (Qfloor q = -1 \/ Qfloor q = 0)%Z).
  { pose proof (Qfloor_resp_le q (1 # 2) (proj2 H)) as H1.
    pose proof (Qfloor_resp_le (- (1 # 2)) q (proj1 H)) as H2.
    change (Qfloor (1 # 2)) with 0%Z in H1.
    change (Qfloor (- (1 # 2))) with (-1)%Z in H2. lia. }
  unfold round_half_even.
  destruct Hf as [Hf | Hf]; rewrite Hf in *.
  - destruct (Qcompare (q - inject_Z (-1)) (1 # 2)) eqn:E.
    + reflexivity.
    + apply Qlt_alt in E. unfold inject_Z in E. lra.
    + reflexivity.
  - destruct (Qcompare (q - inject_Z 0) (1 # 2)) eqn:E.
    + reflexivity.
    + reflexivity.
    + apply Qgt_alt in E. unfold inject_Z in E. lra.
Qed.

Lemma round2_small (q : Q) : Qabs q <= 1 # 200 -> round2 q == 0.
Proof.
  intros H. rewrite round2_scaled, round_half_even_small.
  - reflexivity.
  - apply Qabs_Qle_condition in H. apply Qabs_Qle_condition. split; lra.
Qed.

(** ** The table *)

Section Table.
Context {HE : TenSEAL}.

Lemma query_get_found (k : Z) (db : database) (u : User) :
  query_get k db = Some u -> In u db /\ id u = k.
Proof.
  unfold query_get. intros H. apply find_some in H.
  destruct H as [Hin Hid]. split; [exact Hin | now apply Z.eqb_eq].
Qed.

Lemma query_get_set (k k' : Z) (blob : bytes) (db : database) :
  query_get k (set_encrypted_balance k' blob db) =
  if Z.eqb k k' then option_map (with_balance blob) (query_get k db)
  else query_get k db.
Proof.
  unfold query_get, set_encrypted_balance.
  induction db as [ | u db IH]; simpl.
  - destruct (Z.eqb k k'); reflexivity.
  - destruct (Z.eqb (id u) k') eqn:Ek'; simpl.
    + destruct (Z.eqb (id u) k) eqn:Ek.
      * apply Z.eqb_eq in Ek, Ek'. subst k k'. now rewrite Z.eqb_refl.
      * exact IH.
    + destruct (Z.eqb (id u) k) eqn:Ek.
      * apply Z.eqb_eq in Ek. subst k. now rewrite Ek'.
      * exact IH.
Qed.

Lemma set_ids (k : Z) (blob : bytes) (db : database) :
  map id (set_encrypted_balance k blob db) = map id db.
Proof.
  unfold set_encrypted_balance. rewrite map_map. apply map_ext.
  intros u. now destruct (Z.eqb (id u) k).
Qed.

Lemma set_absent (k : Z) (blob : bytes) (db : database) :
  ~ In k (map id db) -> set_encrypted_balance k blob db = db.
Proof.
  unfold set_encrypted_balance.
  induction db as [ | u db IH]; simpl; intros H; [reflexivity | ].
  destruct (Z.eqb (id u) k) eqn:E.
  - apply Z.eqb_eq in E. tauto.
  - f_equal. apply IH. tauto.
Qed.

Lemma balance_of_ciphertext (u : User) (c : ciphertext) :
  encrypted_balance u = Some (serialize c) ->
  balance u = Ok (round2 (decrypt c)).
Proof.
  unfold balance. intros ->.
  destruct (serialize c) eqn:E; [now apply serialize_nonempty in E | ].
  rewrite <- E. simpl. now rewrite deserialize_serialize.
Qed.

Lemma vector_of_ciphertext (c : ciphertext) :
  ckks_vector_from (Some (serialize c)) = Ok c.
Proof. simpl. now rewrite deserialize_serialize. Qed.

Lemma decrypted_of_ciphertext (u : User) (c : ciphertext) :
  encrypted_balance u = Some (serialize c) -> decrypted u = decrypt c.
Proof.
  unfold decrypted, raw_balance. intros ->. now rewrite deserialize_serialize.
Qed.

Lemma total_balance_set (k : Z) (c : ciphertext) (db : database) (u : User) :
  NoDup (map id db) ->
  query_get k db = Some u ->
  total_balance (set_encrypted_balance k (serialize c) db) ==
  total_balance db - decrypted u + decrypt c.
Proof.
  induction db as [ | v db IH]; intros Hnd Hget; [discriminate | ].
  inversion Hnd as [ | ? ? Hnotin Hnd']; subst.
  unfold query_get in Hget. simpl in Hget.
  change (total_balance (set_encrypted_balance k (serialize c) (v :: db)))
    with (decrypted (if Z.eqb (id v) k then with_balance (serialize c) v else v)
          + total_balance (set_encrypted_balance k (serialize c) db)).
  change (total_balance (v :: db)) with (decrypted v + total_balance db).
  destruct (Z.eqb (id v) k) eqn:E.
  - apply Z.eqb_eq in E. injection Hget as ->. subst k.
    rewrite (set_absent _ _ _ Hnotin).
    rewrite (decrypted_of_ciphertext (with_balance (serialize c) u) c eq_refl).
    ring.
  - rewrite (IH Hnd' Hget). ring.
Qed.

Lemma set_keeps_ciphertexts (k : Z) (c : ciphertext) (db : database) :
  Forall has_ciphertext db ->
  Forall has_ciphertext (set_encrypted_balance k (serialize c) db).
Proof.
  unfold set_encrypted_balance. intros H. apply Forall_map.
  apply Forall_impl with (2 := H). intros u Hu.
  destruct (Z.eqb (id u) k); [now exists c | exact Hu].
Qed.

Lemma set_keeps_ledger (k : Z) (c : ciphertext) (db : database) :
  ledger_ok db -> ledger_ok (set_encrypted_balance k (serialize c) db).
Proof.
  intros [Hnd Hct]. split.
  - now rewrite set_ids.
  - now apply set_keeps_ciphertexts.
Qed.

End Table.

(** ** The ledger operations *)

Ltac qabs_le := apply Qabs_Qle_condition; split; lra.

Section Operations.
Context {HE : TenSEAL}.

Lemma float_gt_not_ge (a b : pyfloat) : float_gt a b = true -> float_ge b a = false.
Proof.
  destruct a as [x | | | ], b as [y | | | ]; simpl; try congruence.
  intros H. destruct (Qle_bool x y); [discriminate | reflexivity].
Qed.

Lemma Qabs_bounds (x : Q) : - Qabs x <= x /\ x <= Qabs x.
Proof.
  split; [ | apply Qle_Qabs].
  pose proof (Qle_Qabs (- x)) as H. rewrite Qabs_opp in H. lra.
Qed.

Lemma tolerance_nonneg (s : seed) : 0 <= tolerance.
Proof.
  assert (H0 : Qabs 0 <= limit) by (exact limit_nonneg).
  apply Qle_trans with (2 := encrypt_close s 0 H0). apply Qabs_nonneg.
Qed.

(** What [fits] provides: the amount is encodable and its encryption, the
    balance and their sum and difference are all within the range. *)
Lemma fits_room (s : seed) (c : ciphertext) (q : Q) :
  fits c q ->
  Qabs q <= limit /\
  Qabs (decrypt c) <= limit /\
  Qabs (decrypt (encrypt s q)) <= limit /\
  Qabs (decrypt c + decrypt (encrypt s q)) <= limit /\
  Qabs (decrypt c - decrypt (encrypt s q)) <= limit.
Proof.
  unfold fits. intros H.
  pose proof (tolerance_nonneg s) as Htol.
  pose proof (Qabs_bounds (decrypt c)) as [Hc1 Hc2].
  pose proof (Qabs_bounds q) as [Hq1 Hq2].
  pose proof (Qabs_nonneg (decrypt c)) as Hc0.
  pose proof (Qabs_nonneg q) as Hq0.
  assert (Hq : Qabs q <= limit) by lra.
  pose proof (encrypt_close s q Hq) as He. apply Qabs_Qle_condition in He.
  split; [exact Hq | ]. split; [lra | ].
  split; [qabs_le | ]. split; qabs_le.
Qed.

Lemma fits_encodable (c : ciphertext) (q : Q) (s : seed) :
  fits c q -> encodable q = true.
Proof.
  intros H. apply encodable_in_range. now apply (fits_room s c q).
Qed.

(** A homomorphic credit moves the decrypted value by the amount, up to the
    noise of the encryption and of the addition. *)
Lemma credit_close (s : seed) (c : ciphertext) (q : Q) :
  fits c q ->
  Qabs (decrypt (ct_add c (encrypt s q)) - (decrypt c + q))
    <= tolerance + tolerance.
Proof.
  intros H. destruct (fits_room s c q H) as (Hq & Hc & He & Hsum & _).
  pose proof (encrypt_close s q Hq) as H1.
  pose proof (decrypt_add c (encrypt s q) Hc He Hsum) as H2.
  apply Qabs_Qle_condition in H1, H2. qabs_le.
Qed.

Lemma debit_close (s : seed) (c : ciphertext) (q : Q) :
  fits c q ->
  Qabs (decrypt (ct_sub c (encrypt s q)) - (decrypt c - q))
    <= tolerance + tolerance.
Proof.
  intros H. destruct (fits_room s c q H) as (Hq & Hc & He & _ & Hdiff).
  pose proof (encrypt_close s q Hq) as H1.
  pose proof (decrypt_sub c (encrypt s q) Hc He Hdiff) as H2.
  apply Qabs_Qle_condition in H1, H2. qabs_le.
Qed.

Lemma deposit_finite (s : seed) (uid : Z) (u : User) (c : ciphertext) (q : Q)
    (db : database) :
  query_get uid db = Some u ->
  encrypted_balance u = Some (serialize c) ->
  deposit s (Some uid) (Finite q) db =
  if encodable q
  then Committed (set_encrypted_balance uid (serialize (ct_add c (encrypt s q))) db)
  else Crashed EncodingError.
Proof.
  intros Hget Hblob. unfold deposit. rewrite Hget, Hblob, vector_of_ciphertext.
  apply query_get_found in Hget. destruct Hget as [_ ->].
  simpl. now destruct (encodable q).
Qed.

Lemma deposit_commits (s : seed) (uid : Z) (u : User) (c : ciphertext) (q : Q)
    (db : database) :
  query_get uid db = Some u ->
  encrypted_balance u = Some (serialize c) ->
  encodable q = true ->
  deposit s (Some uid) (Finite q) db =
  Committed (set_encrypted_balance uid (serialize (ct_add c (encrypt s q))) db).
Proof.
  intros Hget Hblob Henc. now rewrite (deposit_finite s uid u c q db Hget Hblob), Henc.
Qed.

Lemma withdraw_finite (s : seed) (uid : Z) (u : User) (c : ciphertext) (q : Q)
    (db : database) :
  query_get uid db = Some u ->
  encrypted_balance u = Some (serialize c) ->
  withdraw s (Some uid) (Finite q) db =
  if Qle_bool q (round2 (decrypt c))
  then if encodable q
       then Committed
              (set_encrypted_balance uid (serialize (ct_sub c (encrypt s q))) db)
       else Crashed EncodingError
  else Refused.
Proof.
  intros Hget Hblob. unfold withdraw.
  rewrite Hget, (balance_of_ciphertext u c Hblob). simpl.
  destruct (Qle_bool q (round2 (decrypt c))); [ | reflexivity].
  rewrite Hblob, vector_of_ciphertext.
  apply query_get_found in Hget. destruct Hget as [_ ->].
  simpl. now destruct (encodable q).
Qed.

Lemma withdraw_decides (s : seed) (uid : Z) (u : User) (c : ciphertext) (q : Q)
    (db : database) :
  query_get uid db = Some u ->
  encrypted_balance u = Some (serialize c) ->
  encodable q = true ->
  withdraw s (Some uid) (Finite q) db =
  if Qle_bool q (round2 (decrypt c))
  then Committed (set_encrypted_balance uid (serialize (ct_sub c (encrypt s q))) db)
  else Refused.
Proof.
  intros Hget Hblob Henc. now rewrite (withdraw_finite s uid u c q db Hget Hblob), Henc.
Qed.

Lemma transfer_finite (s : seed) (uid : Z) (u r : User) (c cr : ciphertext)
    (q : Q) (name : string) (db : database) :
  query_get uid db = Some u ->
  encrypted_balance u = Some (serialize c) ->
  query_first_by_username name db = Some r ->
  encrypted_balance r = Some (serialize cr) ->
  transfer s (Some uid) (Finite q) name db =
  if Qle_bool q (round2 (decrypt c))
  then if encodable q
       then Committed
              (set_encrypted_balance (id r) (serialize (ct_add cr (encrypt s q)))
                 (set_encrypted_balance uid (serialize (ct_sub c (encrypt s q))) db))
       else Crashed EncodingError
  else Refused.
Proof.
  intros Hget Hblob Hrec Hrblob. unfold transfer.
  rewrite Hget, Hrec, (balance_of_ciphertext u c Hblob). simpl.
  destruct (Qle_bool q (round2 (decrypt c))); [ | reflexivity].
  rewrite Hblob, Hrblob, !vector_of_ciphertext.
  apply query_get_found in Hget. destruct Hget as [_ ->].
  simpl. now destruct (encodable q).
Qed.

Lemma transfer_decides (s : seed) (uid : Z) (u r : User) (c cr : ciphertext)
    (q : Q) (name : string) (db : database) :
  query_get uid db = Some u ->
  encrypted_balance u = Some (serialize c) ->
  query_first_by_username name db = Some r ->
  encrypted_balance r = Some (serialize cr) ->
  encodable q = true ->
  transfer s (Some uid) (Finite q) name db =
  if Qle_bool q (round2 (decrypt c))
  then Committed
         (set_encrypted_balance (id r) (serialize (ct_add cr (encrypt s q)))
            (set_encrypted_balance uid (serialize (ct_sub c (encrypt s q))) db))
  else Refused.
Proof.
  intros Hget Hblob Hrec Hrblob Henc.
  now rewrite (transfer_finite s uid u r c cr q name db Hget Hblob Hrec Hrblob), Henc.
Qed.

End Operations.

(** ** Properties of the operations *)

Section Properties.
Context {HE : TenSEAL}.

Lemma set_twice (k : Z) (b b' : bytes) (db : database) :
  set_encrypted_balance k b (set_encrypted_balance k b' db) =
  set_encrypted_balance k b db.
Proof.
  unfold set_encrypted_balance. rewrite map_map. apply map_ext.
  intros u. destruct (Z.eqb (id u) k) eqn:E; simpl; now rewrite E.
Qed.

(** C5, amended to the amounts the context encodes: a transfer of such an
    amount whose recipient name resolves to the sender's own row succeeds
    whenever the balance check passes; both ciphertexts are computed from
    the balance read before any write and the credit is written last, so the
    debit leaves no trace and the row ends with the old balance plus the
    amount, up to the noise of the encryption and of the addition while the
    values stay within the range of the approximation contract. *)
Theorem self_transfer_creates_money (s : seed) (uid : Z) (a : User) (name : string)
    (c : ciphertext) (b m : Q) (db : database) :
  query_get uid db = Some a ->
  query_first_by_username name db = Some a ->
  encrypted_balance a = Some (serialize c) ->
  balance a = Ok b ->
  float_ge (Finite b) (Finite m) = true ->
  encodable m = true ->
  let credited := ct_add c (encrypt s m) in
  transfer s (Some uid) (Finite m) name db =
    Committed (set_encrypted_balance uid (serialize credited) db) /\
  query_get uid (set_encrypted_balance uid (serialize credited) db) =
    Some (with_balance (serialize credited) a) /\
  raw_balance (with_balance (serialize credited) a) = Some (decrypt credited) /\
  (fits c m ->
   Qabs (decrypt credited - (decrypt c + m)) <= tolerance + tolerance).
Proof.
  intros Hget Hrec Hblob Hbal Hge Henc credited.
  assert (Hid : id a = uid) by (now apply query_get_found in Hget).
  repeat split.
  - rewrite (transfer_decides s uid a a c c m name db Hget Hblob Hrec Hblob Henc).
    rewrite (balance_of_ciphertext a c Hblob) in Hbal. injection Hbal as <-.
    simpl in Hge. rewrite Hge, Hid. now rewrite set_twice.
  - rewrite query_get_set, Z.eqb_refl, Hget. reflexivity.
  - unfold raw_balance. simpl. now rewrite deserialize_serialize.
  - apply credit_close.
Qed.

(** C6, amended to the amounts the context encodes: a deposit has no check
    on the sign of the amount: for every finite amount the context encodes,
    also zero or negative, it commits the homomorphic sum of the stored
    ciphertext and a fresh encryption of the amount, and the decrypted
    balance moves by the amount, up to the noise of the encryption and of
    the addition while the values stay within the range of the approximation
    contract. *)
Theorem deposit_accepts_any_encodable_amount (s : seed) (uid : Z) (u : User)
    (c : ciphertext) (q : Q) (db : database) :
  query_get uid db = Some u ->
  encrypted_balance u = Some (serialize c) ->
  encodable q = true ->
  let new_balance := ct_add c (encrypt s q) in
  deposit s (Some uid) (Finite q) db =
    Committed (set_encrypted_balance uid (serialize new_balance) db) /\
  query_get uid (set_encrypted_balance uid (serialize new_balance) db) =
    Some (with_balance (serialize new_balance) u) /\
  raw_balance (with_balance (serialize new_balance) u) = Some (decrypt new_balance) /\
  (fits c q ->
   Qabs (decrypt new_balance - (decrypt c + q)) <= tolerance + tolerance).
Proof.
  intros Hget Hblob Henc new_balance. repeat split.
  - now apply deposit_commits with (u := u).
  - rewrite query_get_set, Z.eqb_refl, Hget. reflexivity.
  - unfold raw_balance. simpl. now rewrite deserialize_serialize.
  - apply credit_close.
Qed.

(** C7: the codec round trip: a value within the range of the approximation
    contract that the setter stored decodes, by deserializing and decrypting
    the blob, to the value up to the tolerance. *)
Theorem decode_encode_round_trip (s : seed) (x : Q) (u : User) :
  Qabs x <= limit ->
  exists stored r,
    balance_set s x u = Ok stored /\
    raw_balance stored = Some r /\
    Qabs (r - x) <= tolerance.
Proof.
  intros Hx. exists (with_balance (serialize (encrypt s x)) u).
  exists (decrypt (encrypt s x)). repeat split.
  - unfold balance_set. cbn [ckks_vector]. now rewrite (encodable_in_range x Hx).
  - unfold raw_balance. simpl. now rewrite deserialize_serialize.
  - now apply encrypt_close.
Qed.

End Properties.

Lemma self_transfer_creates_money_witness :
  transfer (HE := Plain.scheme) 100%Z (Some 1%Z) (Finite 40) "alice"
    (Plain.two_accounts 100 0) =
  Committed (Plain.two_accounts 140 0).
Proof.
  pose proof (self_transfer_creates_money (HE := Plain.scheme) 100%Z 1%Z
                (Plain.row 1 "alice" 100) "alice" 100 100 40
                (Plain.two_accounts 100 0)
                eq_refl eq_refl eq_refl eq_refl eq_refl eq_refl) as H.
  exact (proj1 H).
Defined.

Lemma deposit_accepts_any_encodable_amount_witness :
  deposit (HE := Plain.scheme) 100%Z (Some 2%Z) (Finite (- (5 # 2)))
    (Plain.two_accounts 100 0) =
  Committed (Plain.two_accounts 100 (- (5 # 2))).
Proof.
  pose proof (deposit_accepts_any_encodable_amount (HE := Plain.scheme) 100%Z 2%Z
                (Plain.row 2 "bob" 0) 0 (- (5 # 2))
                (Plain.two_accounts 100 0) eq_refl eq_refl eq_refl) as H.
  exact (proj1 H).
Defined.

Lemma decode_encode_round_trip_witness :
  exists stored r,
    balance_set (HE := Plain.scheme) 0%Z (1234 # 100) (Plain.row 1 "alice" 0)
      = Ok stored /\
    raw_balance (HE := Plain.scheme) stored = Some r /\
    Qabs (r - (1234 # 100)) <= 1 # 10000.
Proof.
  exact (decode_encode_round_trip (HE := Plain.scheme) 0%Z (1234 # 100)
           (Plain.row 1 "alice" 0) ltac:(now vm_compute)).
Defined.

Section Registration.
Context {HE : TenSEAL}.
Variable generate_password_hash : string -> string.

Lemma first_by_username_app (name : string) (db : database) (u : User) :
  query_first_by_username name db = None ->
  username u = name ->
  query_first_by_username name (db ++ [u]) = Some u.
Proof.
  unfold query_first_by_username.
  induction db as [ | v db IH]; simpl; intros Hnone Hname.
  - now rewrite Hname, String.eqb_refl.
  - destruct (String.eqb (username v) name); [discriminate | now apply IH].
Qed.

Lemma zero_in_range : Qabs 0 <= limit.
Proof. exact limit_nonneg. Qed.

Lemma register_free (s : seed) (name pass : string) (db : database) :
  query_first_by_username name db = None ->
  register generate_password_hash s name pass db =
  Committed (db ++ [mkUser (next_id db) name (generate_password_hash pass)
                      (Some (serialize (encrypt s 0)))]).
Proof.
  intros Hfree. unfold register, balance_set. rewrite Hfree. cbn [ckks_vector].
  now rewrite (encodable_in_range 0 zero_in_range).
Qed.

(** C8: registering a free username commits one new row whose blob is the
    serialized encryption of 0.0; with an encryption noise of at most half a
    cent the balance read back from that row is 0.0. *)
Theorem register_starts_at_zero (s : seed) (name pass : string) (db : database) :
  tolerance <= 1 # 200 ->
  query_first_by_username name db = None ->
  let new_user :=
    mkUser (next_id db) name (generate_password_hash pass)
      (Some (serialize (encrypt s 0))) in
  register generate_password_hash s name pass db = Committed (db ++ [new_user]) /\
  query_first_by_username name (db ++ [new_user]) = Some new_user /\
  exists b, balance new_user = Ok b /\ b == 0.
Proof.
  intros Htol Hfree new_user. repeat split.
  - now apply register_free.
  - now apply first_by_username_app.
  - exists (round2 (decrypt (encrypt s 0))). split.
    + now apply balance_of_ciphertext.
    + apply round2_small.
      pose proof (encrypt_close s 0 zero_in_range) as H.
      assert (E : decrypt (encrypt s 0) - 0 == decrypt (encrypt s 0)) by ring.
      rewrite E in H. lra.
Qed.

(** C9: a row without a blob reads as 0.0; the getter raises only for a blob
    that is present, not empty and does not deserialize. *)
Theorem absent_blob_reads_zero (u : User) :
  (encrypted_balance u = None -> balance u = Ok 0) /\
  (forall e, balance u = Raise e ->
     exists b, encrypted_balance u = Some b /\ b <> [] /\ deserialize b = None).
Proof.
  unfold balance. split.
  - now intros ->.
  - intros e. destruct (encrypted_balance u) as [[ | x b] | ]; try discriminate.
    simpl. destruct (deserialize (x :: b)) eqn:E; [discriminate | ].
    intros _. exists (x :: b). repeat split; [discriminate | exact E].
Qed.

End Registration.

Lemma register_starts_at_zero_witness :
  register (HE := Plain.scheme) Plain.hash 0%Z "carol" "pw" (Plain.two_accounts 100 0) =
  Committed (Plain.two_accounts 100 0 ++ [Plain.row 3 "carol" (- (1 # 10000))]) /\
  balance (HE := Plain.scheme) (Plain.row 3 "carol" (- (1 # 10000))) = Ok 0.
Proof.
  pose proof (register_starts_at_zero (HE := Plain.scheme) Plain.hash 0%Z "carol" "pw"
                (Plain.two_accounts 100 0)) as H.
  simpl in H. specialize (H ltac:(now vm_compute) eq_refl).
  split; [exact (proj1 H) | reflexivity].
Defined.

Lemma absent_blob_reads_zero_witness :
  balance (HE := Plain.scheme) (mkUser 1 "alice" "pw" None) = Ok 0 /\
  balance (HE := Plain.scheme) (mkUser 1 "alice" "pw" (Some [x2b])) =
    Raise DeserializationError.
Proof.
  split.
  - exact (proj1 (absent_blob_reads_zero (HE := Plain.scheme)
                    (mkUser 1 "alice" "pw" None)) eq_refl).
  - reflexivity.
Defined.

Section Authorization.
Context {HE : TenSEAL}.

Lemma committed_if (b e : bool) (db1 : database) :
  (exists db', (if b then if e then Committed db1 else Crashed EncodingError
                else Refused) = Committed db') <-> b = true /\ e = true.
Proof.
  destruct b, e; split; intros H;
    try (now split); try (now destruct H); now exists db1.
Qed.

(** C10: withdraw and transfer go through exactly when the amount is at most
    the decrypted balance rounded to two digits (and the context encodes the
    amount); the unrounded value plays no part, so an amount above it but
    within the rounding is authorized. *)
Theorem authorization_compares_rounded_balance (s : seed) (uid : Z) (u r : User)
    (c cr : ciphertext) (q : Q) (name : string) (db : database) :
  query_get uid db = Some u ->
  encrypted_balance u = Some (serialize c) ->
  query_first_by_username name db = Some r ->
  encrypted_balance r = Some (serialize cr) ->
  ((exists db', withdraw s (Some uid) (Finite q) db = Committed db') <->
     q <= round2 (decrypt c) /\ encodable q = true) /\
  ((exists db', transfer s (Some uid) (Finite q) name db = Committed db') <->
     q <= round2 (decrypt c) /\ encodable q = true).
Proof.
  intros Hget Hblob Hrec Hrblob.
  rewrite (withdraw_finite s uid u c q db Hget Hblob).
  rewrite (transfer_finite s uid u r c cr q name db Hget Hblob Hrec Hrblob).
  rewrite !committed_if, <- Qle_bool_iff. split; reflexivity.
Qed.

(** C2, amended to the balance the code compares with: an amount strictly
    above the balance read through the getter (decrypted and rounded to two
    digits) is refused by withdraw and by transfer, and the table is left as
    it was. *)
Theorem no_overdraw_of_rounded_balance (s : seed) (uid : Z) (u : User) (b : Q)
    (amount : pyfloat) (name : string) (db : database) :
  query_get uid db = Some u ->
  balance u = Ok b ->
  float_gt amount (Finite b) = true ->
  (withdraw s (Some uid) amount db = Refused /\
   persisted db (withdraw s (Some uid) amount db) = db) /\
  (transfer s (Some uid) amount name db = Refused /\
   persisted db (transfer s (Some uid) amount name db) = db).
Proof.
  intros Hget Hbal Hgt. apply float_gt_not_ge in Hgt.
  assert (W : withdraw s (Some uid) amount db = Refused).
  { unfold withdraw. now rewrite Hget, Hbal, Hgt. }
  assert (T : transfer s (Some uid) amount name db = Refused).
  { unfold transfer. rewrite Hget, Hbal, Hgt.
    now destruct (query_first_by_username name db). }
  rewrite W, T. repeat split.
Qed.

(** C3, amended to the guard the code has: a transfer to a username that no
    row carries is refused, for a logged-in sender, and whatever the session
    it commits nothing and leaves the table as it was. *)
Theorem transfer_requires_recipient (s : seed) (session_user : option Z)
    (amount : pyfloat) (name : string) (db : database) :
  query_first_by_username name db = None ->
  (forall uid, session_user = Some uid ->
     transfer s session_user amount name db = Refused) /\
  (forall db', transfer s session_user amount name db <> Committed db') /\
  persisted db (transfer s session_user amount name db) = db.
Proof.
  intros Hnone. unfold transfer. rewrite Hnone.
  destruct session_user; repeat split; try discriminate; intros; discriminate.
Qed.

(** C4, amended to the check the code has: withdraw looks at the balance
    only.  Every finite amount the context encodes up to the rounded
    decrypted balance, whatever its sign, commits the homomorphic difference
    of the stored ciphertext and a fresh encryption of the amount; an amount
    the balance does not reach (also NaN and +inf) is refused without a
    write; nothing else commits. *)
Theorem withdraw_checks_balance_only (s : seed) (uid : Z) (u : User)
    (c : ciphertext) (db : database) :
  query_get uid db = Some u ->
  encrypted_balance u = Some (serialize c) ->
  (forall q, encodable q = true -> q <= round2 (decrypt c) ->
     withdraw s (Some uid) (Finite q) db =
     Committed (set_encrypted_balance uid (serialize (ct_sub c (encrypt s q))) db)) /\
  (forall amount, float_ge (Finite (round2 (decrypt c))) amount = false ->
     withdraw s (Some uid) amount db = Refused /\
     persisted db (withdraw s (Some uid) amount db) = db) /\
  (forall amount db', withdraw s (Some uid) amount db = Committed db' ->
     exists q, amount = Finite q /\ q <= round2 (decrypt c) /\
       db' = set_encrypted_balance uid (serialize (ct_sub c (encrypt s q))) db).
Proof.
  intros Hget Hblob. repeat split.
  - intros q Henc Hq. rewrite (withdraw_decides s uid u c q db Hget Hblob Henc).
    apply Qle_bool_iff in Hq. now rewrite Hq.
  - unfold withdraw. now rewrite Hget, (balance_of_ciphertext u c Hblob), H.
  - unfold withdraw. now rewrite Hget, (balance_of_ciphertext u c Hblob), H.
  - intros amount db'. destruct amount as [q | | | ].
    + rewrite (withdraw_finite s uid u c q db Hget Hblob).
      destruct (Qle_bool q (round2 (decrypt c))) eqn:E; [ | discriminate].
      destruct (encodable q); [ | discriminate].
      intros [= <-]. exists q. apply Qle_bool_iff in E. now repeat split.
    + unfold withdraw. now rewrite Hget, (balance_of_ciphertext u c Hblob).
    + unfold withdraw.
      rewrite Hget, (balance_of_ciphertext u c Hblob), Hblob, vector_of_ciphertext.
      discriminate.
    + unfold withdraw. now rewrite Hget, (balance_of_ciphertext u c Hblob).
Qed.

End Authorization.

(** ** Conservation of the total *)

Section Conservation.
Context {HE : TenSEAL}.
Variable generate_password_hash : string -> string.

Lemma query_get_of_row (db : database) (u : User) :
  NoDup (map id db) -> In u db -> query_get (id u) db = Some u.
Proof.
  unfold query_get.
  induction db as [ | v db IH]; intros Hnd Hin; [contradiction | ].
  inversion Hnd as [ | ? ? Hnotin Hnd']; subst. simpl.
  destruct Hin as [-> | Hin].
  - now rewrite Z.eqb_refl.
  - destruct (Z.eqb (id v) (id u)) eqn:E.
    + apply Z.eqb_eq in E. exfalso. apply Hnotin. rewrite E. now apply in_map.
    + now apply IH.
Qed.

Lemma first_by_username_found (name : string) (db : database) (u : User) :
  query_first_by_username name db = Some u -> In u db.
Proof.
  unfold query_first_by_username. intros H. now apply find_some in H.
Qed.

Lemma row_ciphertext (db : database) (u : User) :
  ledger_ok db -> In u db -> exists c, encrypted_balance u = Some (serialize c).
Proof.
  intros [_ Hct] Hin. rewrite Forall_forall in Hct. exact (Hct u Hin).
Qed.

Lemma row_fits_intro (k : Z) (q : Q) (db : database) (u : User) (c : ciphertext) :
  query_get k db = Some u ->
  encrypted_balance u = Some (serialize c) ->
  fits c q ->
  row_fits k q db.
Proof.
  intros Hget Hblob Hfit u' c' Hget' Hblob'.
  rewrite Hget in Hget'. injection Hget' as <-.
  rewrite Hblob in Hblob'. injection Hblob' as Hser.
  apply (f_equal deserialize) in Hser. rewrite !deserialize_serialize in Hser.
  now injection Hser as <-.
Qed.

Lemma unchanged_conserves (db : database) : Qabs (total_balance db - (total_balance db + 0)) <= 0.
Proof.
  assert (E : total_balance db - (total_balance db + 0) == 0) by ring.
  rewrite E. discriminate.
Qed.

Lemma deposit_keeps_ledger (s : seed) (su : option Z) (amount : pyfloat)
    (db : database) :
  ledger_ok db -> ledger_ok (persisted db (deposit s su amount db)).
Proof.
  intros Hok. unfold deposit.
  destruct su as [uid | ]; [ | exact Hok].
  destruct (query_get uid db) as [u | ]; [ | exact Hok].
  destruct (ckks_vector_from (encrypted_balance u)); [ | exact Hok].
  destruct amount as [q | | | ]; try exact Hok.
  cbn [bind ckks_vector]. destruct (encodable q); [ | exact Hok].
  cbn [finish persisted]. now apply set_keeps_ledger.
Qed.

Lemma withdraw_keeps_ledger (s : seed) (su : option Z) (amount : pyfloat)
    (db : database) :
  ledger_ok db -> ledger_ok (persisted db (withdraw s su amount db)).
Proof.
  intros Hok. unfold withdraw.
  destruct su as [uid | ]; [ | exact Hok].
  destruct (query_get uid db) as [u | ]; [ | exact Hok].
  destruct (balance u) as [b | e]; [ | exact Hok].
  destruct (float_ge (Finite b) amount); [ | exact Hok].
  destruct (ckks_vector_from (encrypted_balance u)); [ | exact Hok].
  destruct amount as [q | | | ]; try exact Hok.
  cbn [bind ckks_vector]. destruct (encodable q); [ | exact Hok].
  cbn [finish persisted]. now apply set_keeps_ledger.
Qed.

Lemma transfer_keeps_ledger (s : seed) (su : option Z) (amount : pyfloat)
    (name : string) (db : database) :
  ledger_ok db -> ledger_ok (persisted db (transfer s su amount name db)).
Proof.
  intros Hok. unfold transfer.
  destruct su as [uid | ]; [ | exact Hok].
  destruct (query_first_by_username name db) as [r | ] eqn:Hrec; [ | exact Hok].
  destruct (query_get uid db) as [u | ] eqn:Hget; [ | exact Hok].
  destruct (balance u) as [b | e]; [ | exact Hok].
  destruct (float_ge (Finite b) amount); [ | exact Hok].
  destruct (ckks_vector_from (encrypted_balance u)); [ | exact Hok].
  destruct (ckks_vector_from (encrypted_balance r)); [ | exact Hok].
  destruct amount as [q | | | ]; try exact Hok.
  cbn [bind ckks_vector]. destruct (encodable q); [ | exact Hok].
  cbn [finish persisted]. now do 2 apply set_keeps_ledger.
Qed.

Lemma deposit_conserves (s : seed) (su : option Z) (amount : pyfloat) (db : database) :
  ledger_ok db ->
  request_fits (Deposit su amount) db ->
  let o := deposit s su amount db in
  Qabs (total_balance (persisted db o) - (total_balance db + booked (Deposit su amount) o))
    <= slack (Deposit su amount) o.
Proof.
  intros Hok Hfit o. subst o.
  destruct su as [uid | ]; [ | apply unchanged_conserves].
  destruct (query_get uid db) as [u | ] eqn:Hget;
    [ | unfold deposit; rewrite Hget; apply unchanged_conserves].
  pose proof (query_get_found _ _ _ Hget) as [Hin Hid].
  destruct (row_ciphertext db u Hok Hin) as [c Hblob].
  destruct amount as [q | | | ];
    try (unfold deposit; rewrite Hget, Hblob, vector_of_ciphertext;
         apply unchanged_conserves).
  rewrite (deposit_finite s uid u c q db Hget Hblob).
  destruct (encodable q); [ | apply unchanged_conserves].
  cbn [persisted booked slack].
  rewrite (total_balance_set uid _ db u (proj1 Hok) Hget).
  rewrite (decrypted_of_ciphertext u c Hblob).
  pose proof (credit_close s c q (Hfit u c Hget Hblob)) as H.
  apply Qabs_Qle_condition in H. qabs_le.
Qed.

Lemma withdraw_conserves (s : seed) (su : option Z) (amount : pyfloat) (db : database) :
  ledger_ok db ->
  request_fits (Withdraw su amount) db ->
  let o := withdraw s su amount db in
  Qabs (total_balance (persisted db o) - (total_balance db + booked (Withdraw su amount) o))
    <= slack (Withdraw su amount) o.
Proof.
  intros Hok Hfit o. subst o.
  destruct su as [uid | ]; [ | apply unchanged_conserves].
  destruct (query_get uid db) as [u | ] eqn:Hget;
    [ | unfold withdraw; rewrite Hget; apply unchanged_conserves].
  pose proof (query_get_found _ _ _ Hget) as [Hin Hid].
  destruct (row_ciphertext db u Hok Hin) as [c Hblob].
  destruct amount as [q | | | ];
    try (unfold withdraw;
         rewrite Hget, (balance_of_ciphertext u c Hblob), Hblob, vector_of_ciphertext;
         cbn [float_ge bind ckks_vector finish]; apply unchanged_conserves).
  rewrite (withdraw_finite s uid u c q db Hget Hblob).
  destruct (Qle_bool q (round2 (decrypt c))); [ | apply unchanged_conserves].
  destruct (encodable q); [ | apply unchanged_conserves].
  cbn [persisted booked slack].
  rewrite (total_balance_set uid _ db u (proj1 Hok) Hget).
  rewrite (decrypted_of_ciphertext u c Hblob).
  pose proof (debit_close s c q (Hfit u c Hget Hblob)) as H.
  apply Qabs_Qle_condition in H. qabs_le.
Qed.

Lemma transfer_conserves (s : seed) (su : option Z) (amount : pyfloat)
    (name : string) (db : database) :
  ledger_ok db ->
  between_accounts (Transfer su amount name) db ->
  request_fits (Transfer su amount name) db ->
  let o := transfer s su amount name db in
  Qabs (total_balance (persisted db o) - (total_balance db + 0))
    <= slack (Transfer su amount name) o.
Proof.
  intros Hok Hbetween Hfit o. subst o.
  destruct su as [uid | ]; [ | apply unchanged_conserves].
  destruct (query_first_by_username name db) as [r | ] eqn:Hrec;
    [ | unfold transfer; rewrite Hrec; apply unchanged_conserves].
  destruct (query_get uid db) as [u | ] eqn:Hget;
    [ | unfold transfer; rewrite Hrec, Hget; apply unchanged_conserves].
  pose proof (query_get_found _ _ _ Hget) as [Hin Hid].
  pose proof (first_by_username_found _ _ _ Hrec) as Hrin.
  destruct (row_ciphertext db u Hok Hin) as [c Hblob].
  destruct (row_ciphertext db r Hok Hrin) as [cr Hrblob].
  destruct amount as [q | | | ];
    try (unfold transfer;
         rewrite Hrec, Hget, (balance_of_ciphertext u c Hblob), Hblob, Hrblob,
           !vector_of_ciphertext;
         cbn [float_ge bind ckks_vector finish]; apply unchanged_conserves).
  rewrite (transfer_finite s uid u r c cr q name db Hget Hblob Hrec Hrblob).
  destruct (Qle_bool q (round2 (decrypt c))); [ | apply unchanged_conserves].
  destruct (encodable q); [ | apply unchanged_conserves].
  cbn [persisted slack].
  assert (Hne : id r <> uid) by (now apply (Hbetween r)).
  assert (Hrget : query_get (id r) db = Some r)
    by (now apply query_get_of_row; [apply Hok | ]).
  assert (Hget' : query_get (id r)
                    (set_encrypted_balance uid (serialize (ct_sub c (encrypt s q))) db)
                  = Some r).
  { rewrite query_get_set. apply Z.eqb_neq in Hne. now rewrite Hne. }
  rewrite (total_balance_set (id r) _ _ r); [ | now rewrite set_ids; apply Hok | exact Hget'].
  rewrite (total_balance_set uid _ db u (proj1 Hok) Hget).
  rewrite (decrypted_of_ciphertext u c Hblob), (decrypted_of_ciphertext r cr Hrblob).
  destruct Hfit as [Hfs Hfr].
  destruct (fits_room s c q (Hfs u c Hget Hblob)) as (_ & Hc & He & _ & Hdiff).
  destruct (fits_room s cr q (Hfr r Hrec r cr Hrget Hrblob)) as (_ & Hcr & _ & Hsum & _).
  pose proof (decrypt_sub c (encrypt s q) Hc He Hdiff) as H1.
  pose proof (decrypt_add cr (encrypt s q) Hcr He Hsum) as H2.
  apply Qabs_Qle_condition in H1, H2. qabs_le.
Qed.

Lemma request_conserves (s : seed) (r : request) (db : database) :
  ledger_ok db ->
  between_accounts r db ->
  request_fits r db ->
  let o := handle generate_password_hash s r db in
  ledger_ok (persisted db o) /\
  Qabs (total_balance (persisted db o) - (total_balance db + booked r o)) <= slack r o.
Proof.
  intros Hok Hbetween Hfit.
  destruct r as [name pass | su amount | su amount | su amount name].
  - contradiction.
  - split; [now apply deposit_keeps_ledger | now apply deposit_conserves].
  - split; [now apply withdraw_keeps_ledger | now apply withdraw_conserves].
  - cbv zeta. simpl handle. split; [now apply transfer_keeps_ledger | ].
    pose proof (transfer_conserves s su amount name db Hok Hbetween Hfit) as H.
    cbv zeta in H. now destruct (transfer s su amount name db).
Qed.

(** Without a transfer to oneself, and within the range of the
    approximation contract, the ledger is conserved: after any sequence of
    deposits, withdrawals and transfers the total of the decrypted balances
    is the total before plus the committed deposits minus the committed
    withdrawals, up to the noise of each committed request. *)
Lemma replay_conserves (rs : list (seed * request)) (db : database) :
  ledger_ok db ->
  all_between_accounts generate_password_hash rs db ->
  all_fit generate_password_hash rs db ->
  ledger_ok (replay generate_password_hash rs db) /\
  Qabs (total_balance (replay generate_password_hash rs db)
        - (total_balance db + booked_all generate_password_hash rs db))
    <= slack_all generate_password_hash rs db.
Proof.
  revert db. induction rs as [ | [s r] rs IH]; intros db Hok Hall Hfit.
  - split; [exact Hok | apply unchanged_conserves].
  - destruct Hall as [Hr Hrs]. destruct Hfit as [Hf Hfs].
    destruct (request_conserves s r db Hok Hr Hf) as [Hok' Hstep].
    destruct (IH _ Hok' Hrs Hfs) as [Hok'' Hrest].
    split; [exact Hok'' | ].
    simpl replay. simpl booked_all. simpl slack_all.
    apply Qabs_Qle_condition in Hstep, Hrest. qabs_le.
Qed.

End Conservation.

(** ** Every reachable table carries a ciphertext in every row *)

Section Reachable.
Context {HE : TenSEAL}.
Variable generate_password_hash : string -> string.

Lemma ids_below_next (db : database) (k : Z) :
  In k (map id db) -> (k < next_id db)%Z.
Proof.
  unfold next_id. induction db as [ | u db IH]; cbn [map fold_right In];
    [contradiction | ].
  intros [<- | Hin]; [lia | ]. specialize (IH Hin). lia.
Qed.

Lemma register_keeps_ledger (s : seed) (name pass : string) (db : database) :
  ledger_ok db ->
  ledger_ok (persisted db (register generate_password_hash s name pass db)).
Proof.
  intros [Hnd Hct].
  destruct (query_first_by_username name db) eqn:Hfree;
    [unfold register; rewrite Hfree; now split | ].
  rewrite (register_free generate_password_hash s name pass db Hfree).
  cbn [persisted]. split.
  - rewrite map_app. simpl.
    apply NoDup_app; [exact Hnd | repeat constructor; intros [] | ].
    intros k Hin [<- | []]. apply ids_below_next in Hin. lia.
  - apply Forall_app. split; [exact Hct | ].
    repeat constructor. now exists (encrypt s 0).
Qed.

Lemma handle_keeps_ledger (s : seed) (r : request) (db : database) :
  ledger_ok db -> ledger_ok (persisted db (handle generate_password_hash s r db)).
Proof.
  intros Hok. destruct r as [name pass | su amount | su amount | su amount name].
  - now apply register_keeps_ledger.
  - now apply deposit_keeps_ledger.
  - now apply withdraw_keeps_ledger.
  - now apply transfer_keeps_ledger.
Qed.

Lemma replay_keeps_ledger (rs : list (seed * request)) (db : database) :
  ledger_ok db -> ledger_ok (replay generate_password_hash rs db).
Proof.
  revert db. induction rs as [ | [s r] rs IH]; intros db Hok; [exact Hok | ].
  simpl. apply IH. now apply handle_keeps_ledger.
Qed.

(** Whatever requests were served since the table was created, every row has
    its own key and a blob that is a serialized ciphertext. *)
Lemma reachable_ledger_ok (rs : list (seed * request)) :
  ledger_ok (replay generate_password_hash rs []).
Proof.
  apply replay_keeps_ledger. split; constructor.
Qed.

End Reachable.

(** ** The operations on the concrete instance *)

Lemma authorization_compares_rounded_balance_witness :
  99996 # 1000 < 100 /\
  (exists db', withdraw (HE := Plain.scheme) 100%Z (Some 1%Z) (Finite 100)
                 (Plain.two_accounts (99996 # 1000) 0) = Committed db') /\
  (exists db', transfer (HE := Plain.scheme) 100%Z (Some 1%Z) (Finite 100) "bob"
                 (Plain.two_accounts (99996 # 1000) 0) = Committed db').
Proof.
  pose proof (authorization_compares_rounded_balance (HE := Plain.scheme)
                100%Z 1%Z (Plain.row 1 "alice" (99996 # 1000)) (Plain.row 2 "bob" 0)
                (99996 # 1000) 0 100 "bob" (Plain.two_accounts (99996 # 1000) 0)
                eq_refl eq_refl eq_refl eq_refl) as [W T].
  split; [reflexivity | ].
  split; [apply W | apply T]; (split; [now vm_compute | reflexivity]).
Defined.

Lemma no_overdraw_of_rounded_balance_witness :
  withdraw (HE := Plain.scheme) 100%Z (Some 1%Z) (Finite 1000)
    (Plain.two_accounts 60 40) = Refused /\
  transfer (HE := Plain.scheme) 100%Z (Some 1%Z) (Finite 1000) "bob"
    (Plain.two_accounts 60 40) = Refused.
Proof.
  pose proof (no_overdraw_of_rounded_balance (HE := Plain.scheme) 100%Z 1%Z
                (Plain.row 1 "alice" 60) 60 (Finite 1000) "bob"
                (Plain.two_accounts 60 40) eq_refl eq_refl eq_refl) as [[W _] [T _]].
  exact (conj W T).
Defined.

Lemma transfer_requires_recipient_witness :
  transfer (HE := Plain.scheme) 100%Z (Some 1%Z) (Finite 40) "mallory"
    (Plain.two_accounts 100 0) = Refused.
Proof.
  exact (proj1 (transfer_requires_recipient (HE := Plain.scheme) 100%Z (Some 1%Z)
                  (Finite 40) "mallory" (Plain.two_accounts 100 0) eq_refl)
               1%Z eq_refl).
Defined.

Lemma withdraw_checks_balance_only_witness :
  withdraw (HE := Plain.scheme) 100%Z (Some 1%Z) (Finite 30)
    (Plain.two_accounts 100 0) = Committed (Plain.two_accounts 70 0) /\
  withdraw (HE := Plain.scheme) 100%Z (Some 1%Z) (Finite 1000)
    (Plain.two_accounts 100 0) = Refused.
Proof.
  pose proof (withdraw_checks_balance_only (HE := Plain.scheme) 100%Z 1%Z
                (Plain.row 1 "alice" 100) 100 (Plain.two_accounts 100 0)
                eq_refl eq_refl) as [Hok [Hno _]].
  split.
  - apply (Hok 30); [reflexivity | now vm_compute].
  - apply (Hno (Finite 1000)). reflexivity.
Defined.

(** Against C2 as stated: after a deposit of 99.996 the decrypted balance is
    99.996, below 100, and yet a withdrawal and a transfer of 100 commit. *)
Lemma overdraw_within_rounding :
  exists u w t,
    query_get 1 Plain.funded = Some u /\
    raw_balance (HE := Plain.scheme) u = Some (24999 # 250) /\
    float_gt (Finite 100) (Finite (24999 # 250)) = true /\
    withdraw (HE := Plain.scheme) 100%Z (Some 1%Z) (Finite 100) Plain.funded =
      Committed w /\
    w <> Plain.funded /\
    transfer (HE := Plain.scheme) 100%Z (Some 1%Z) (Finite 100) "bob" Plain.funded =
      Committed t /\
    t <> Plain.funded.
Proof.
  exists (Plain.row 1 "alice" (24999 # 250)).
  exists (Plain.two_accounts (- (1 # 250)) 0).
  exists (Plain.two_accounts (- (1 # 250)) 100).
  repeat split; try reflexivity; discriminate.
Qed.

(** Against C3 as stated: the recipient name resolves to the sender's own
    row, and the transfer commits and changes the stored balance. *)
Lemma self_transfer_is_not_rejected :
  query_first_by_username "alice" (Plain.two_accounts 100 0) =
    query_get 1 (Plain.two_accounts 100 0) /\
  transfer (HE := Plain.scheme) 100%Z (Some 1%Z) (Finite 40) "alice"
    (Plain.two_accounts 100 0) = Committed (Plain.two_accounts 140 0) /\
  Plain.two_accounts 140 0 <> Plain.two_accounts 100 0.
Proof.
  repeat split; try reflexivity; discriminate.
Qed.

(** Against C4 as stated: a withdrawal of -5 from an empty account commits
    and leaves a balance of 5. *)
Lemma withdraw_of_negative_amount_commits :
  - (5) <= 0 /\
  withdraw (HE := Plain.scheme) 100%Z (Some 1%Z) (Finite (- (5)))
    (Plain.two_accounts 0 0) = Committed (Plain.two_accounts 5 0) /\
  Plain.two_accounts 5 0 <> Plain.two_accounts 0 0.
Proof.
  repeat split; try reflexivity; discriminate.
Qed.

(** Against C5 as stated: the balance check passes for -inf and for
    -10^30, and the self-transfer ends in an encoding error instead of
    succeeding. *)
Lemma self_transfer_of_unencodable_amount_fails :
  balance (HE := Plain.scheme) (Plain.row 1 "alice" 100) = Ok 100 /\
  float_ge (Finite 100) NegInf = true /\
  transfer (HE := Plain.scheme) 100%Z (Some 1%Z) NegInf "alice"
    (Plain.two_accounts 100 0) = Crashed EncodingError /\
  float_ge (Finite 100) (Finite (- (1000000000000000000000000000000))) = true /\
  transfer (HE := Plain.scheme) 100%Z (Some 1%Z)
    (Finite (- (1000000000000000000000000000000))) "alice"
    (Plain.two_accounts 100 0) = Crashed EncodingError.
Proof.
  repeat split.
Qed.

(** Against C6 as stated: 10^30 is a finite amount, and its deposit ends in
    an encoding error. *)
Lemma deposit_of_unencodable_amount_fails :
  deposit (HE := Plain.scheme) 100%Z (Some 1%Z)
    (Finite 1000000000000000000000000000000) (Plain.two_accounts 100 0) =
  Crashed EncodingError.
Proof.
  reflexivity.
Qed.

(** C1, at the input where the code misses it: one transfer of 40 from alice
    to alice, no deposit and no withdrawal, and the sum of the decrypted
    balances goes from 100 to 140. *)
Theorem self_transfer_breaks_conservation :
  total_balance (HE := Plain.scheme) (Plain.two_accounts 100 0) == 100 /\
  replay (HE := Plain.scheme) Plain.hash
    [(100%Z, Transfer (Some 1%Z) (Finite 40) "alice")] (Plain.two_accounts 100 0) =
    Plain.two_accounts 140 0 /\
  total_balance (HE := Plain.scheme) (Plain.two_accounts 140 0) == 140.
Proof.
  repeat split.
Qed.

(** The scenario of the specification: two accounts are opened, alice
    deposits 100, sends 40 to bob and then asks for 1000, which is refused. *)
Example ledger_scenario :
  replay (HE := Plain.scheme) Plain.hash
    (Plain.opened ++
     [(100%Z, Deposit (Some 1%Z) (Finite 100));
      (100%Z, Transfer (Some 1%Z) (Finite 40) "bob");
      (100%Z, Withdraw (Some 1%Z) (Finite 1000))]) [] =
  Plain.two_accounts 60 40.
Proof. reflexivity. Qed.

(** ** Which rows a request writes *)

Section Frame.
Context {HE : TenSEAL}.

Lemma set_identities (k : Z) (blob : bytes) (db : database) :
  identities (set_encrypted_balance k blob db) = identities db.
Proof.
  unfold identities, set_encrypted_balance. rewrite map_map. apply map_ext.
  intros u. now destruct (Z.eqb (id u) k).
Qed.

Lemma query_get_set_other (k k' : Z) (blob : bytes) (db : database) :
  k <> k' -> query_get k (set_encrypted_balance k' blob db) = query_get k db.
Proof.
  intros Hne. rewrite query_get_set. apply Z.eqb_neq in Hne. now rewrite Hne.
Qed.

Lemma deposit_shape (s : seed) (su : option Z) (amount : pyfloat) (db : database) :
  persisted db (deposit s su amount db) = db \/
  exists uid blob, su = Some uid /\
    persisted db (deposit s su amount db) = set_encrypted_balance uid blob db.
Proof.
  unfold deposit. destruct su as [uid | ]; [ | now left].
  destruct (query_get uid db) as [u | ] eqn:Hget; [ | now left].
  apply query_get_found in Hget. destruct Hget as [_ ->].
  destruct (ckks_vector_from (encrypted_balance u)); [ | now left].
  destruct amount as [q | | | ]; try (now left).
  cbn [bind ckks_vector]. destruct (encodable q); [ | now left].
  right. now eexists _, _.
Qed.

Lemma withdraw_shape (s : seed) (su : option Z) (amount : pyfloat) (db : database) :
  persisted db (withdraw s su amount db) = db \/
  exists uid blob, su = Some uid /\
    persisted db (withdraw s su amount db) = set_encrypted_balance uid blob db.
Proof.
  unfold withdraw. destruct su as [uid | ]; [ | now left].
  destruct (query_get uid db) as [u | ] eqn:Hget; [ | now left].
  apply query_get_found in Hget. destruct Hget as [_ ->].
  destruct (balance u); [ | now left].
  destruct (float_ge _ amount); [ | now left].
  destruct (ckks_vector_from (encrypted_balance u)); [ | now left].
  destruct amount as [q | | | ]; try (now left).
  cbn [bind ckks_vector]. destruct (encodable q); [ | now left].
  right. now eexists _, _.
Qed.

Lemma transfer_shape (s : seed) (su : option Z) (amount : pyfloat) (name : string)
    (db : database) :
  persisted db (transfer s su amount name db) = db \/
  exists uid r blob blob', su = Some uid /\
    query_first_by_username name db = Some r /\
    persisted db (transfer s su amount name db) =
    set_encrypted_balance (id r) blob' (set_encrypted_balance uid blob db).
Proof.
  unfold transfer. destruct su as [uid | ]; [ | now left].
  destruct (query_first_by_username name db) as [r | ]; [ | now left].
  destruct (query_get uid db) as [u | ] eqn:Hget; [ | now left].
  apply query_get_found in Hget. destruct Hget as [_ ->].
  destruct (balance u); [ | now left].
  destruct (float_ge _ amount); [ | now left].
  destruct (ckks_vector_from (encrypted_balance u)); [ | now left].
  destruct (ckks_vector_from (encrypted_balance r)); [ | now left].
  destruct amount as [q | | | ]; try (now left).
  cbn [bind ckks_vector]. destruct (encodable q); [ | now left].
  right. now eexists _, _, _, _.
Qed.

Lemma deposit_identities (s : seed) (su : option Z) (amount : pyfloat) (db : database) :
  identities (persisted db (deposit s su amount db)) = identities db.
Proof.
  destruct (deposit_shape s su amount db) as [-> | (uid & blob & _ & ->)];
    [reflexivity | apply set_identities].
Qed.

Lemma withdraw_identities (s : seed) (su : option Z) (amount : pyfloat) (db : database) :
  identities (persisted db (withdraw s su amount db)) = identities db.
Proof.
  destruct (withdraw_shape s su amount db) as [-> | (uid & blob & _ & ->)];
    [reflexivity | apply set_identities].
Qed.

Lemma transfer_identities (s : seed) (su : option Z) (amount : pyfloat)
    (name : string) (db : database) :
  identities (persisted db (transfer s su amount name db)) = identities db.
Proof.
  destruct (transfer_shape s su amount name db)
    as [-> | (uid & r & blob & blob' & _ & _ & ->)];
    [reflexivity | now rewrite !set_identities].
Qed.

(** X1: a deposit, a withdrawal and a transfer never add, drop or reorder
    rows and never touch a key, a username or a password hash: whatever the
    session, the amount and the outcome, only balances can differ. *)
Theorem ledger_requests_keep_identities (s : seed) (su : option Z)
    (amount : pyfloat) (name : string) (db : database) :
  identities (persisted db (deposit s su amount db)) = identities db /\
  identities (persisted db (withdraw s su amount db)) = identities db /\
  identities (persisted db (transfer s su amount name db)) = identities db.
Proof.
  split; [apply deposit_identities | ].
  split; [apply withdraw_identities | apply transfer_identities].
Qed.

(** X2: a request writes only the rows it names.  For a logged-in user, a
    deposit and a withdrawal leave every other row as it was, and so does a
    transfer for every row that is neither the sender's nor the one the
    recipient name resolves to. *)
Theorem ledger_requests_touch_only_their_rows (s : seed) (uid k : Z)
    (amount : pyfloat) (name : string) (db : database) :
  k <> uid ->
  query_get k (persisted db (deposit s (Some uid) amount db)) = query_get k db /\
  query_get k (persisted db (withdraw s (Some uid) amount db)) = query_get k db /\
  ((forall r, query_first_by_username name db = Some r -> id r <> k) ->
   query_get k (persisted db (transfer s (Some uid) amount name db)) = query_get k db).
Proof.
  intros Hne. repeat split.
  - destruct (deposit_shape s (Some uid) amount db) as [-> | (u & blob & [= <-] & ->)];
      [reflexivity | now apply query_get_set_other].
  - destruct (withdraw_shape s (Some uid) amount db) as [-> | (u & blob & [= <-] & ->)];
      [reflexivity | now apply query_get_set_other].
  - intros Hrec.
    destruct (transfer_shape s (Some uid) amount name db)
      as [-> | (u & r & blob & blob' & [= <-] & Hr & ->)]; [reflexivity | ].
    rewrite query_get_set_other by (intros ->; now apply (Hrec r)).
    now apply query_get_set_other.
Qed.

End Frame.

(** ** Debits and credits *)

Section Amounts.
Context {HE : TenSEAL}.
Variable generate_password_hash : string -> string.

(** X3: a transfer between two different rows that passes the balance check
    debits the sender and credits the recipient with one and the same
    encryption of the amount.  While both balances and the amount stay
    within the range of the approximation contract, each decrypted balance
    moves by the amount and their sum stays where it was, each up to twice
    the tolerance. *)
Theorem transfer_moves_amount (s : seed) (uid : Z) (u r : User) (c cr : ciphertext)
    (q : Q) (name : string) (db : database) :
  NoDup (map id db) ->
  query_get uid db = Some u ->
  encrypted_balance u = Some (serialize c) ->
  query_first_by_username name db = Some r ->
  encrypted_balance r = Some (serialize cr) ->
  id r <> uid ->
  q <= round2 (decrypt c) ->
  fits c q ->
  fits cr q ->
  let debited := ct_sub c (encrypt s q) in
  let credited := ct_add cr (encrypt s q) in
  exists db',
    transfer s (Some uid) (Finite q) name db = Committed db' /\
    query_get uid db' = Some (with_balance (serialize debited) u) /\
    query_get (id r) db' = Some (with_balance (serialize credited) r) /\
    Qabs (decrypt debited + decrypt credited - (decrypt c + decrypt cr))
      <= tolerance + tolerance /\
    Qabs (decrypt debited - (decrypt c - q)) <= tolerance + tolerance /\
    Qabs (decrypt credited - (decrypt cr + q)) <= tolerance + tolerance.
Proof.
  intros Hnd Hget Hblob Hrec Hrblob Hne Hq Hfs Hfr debited credited.
  eexists. split; [ | split; [ | split; [ | split; [ | split]]]].
  - rewrite (transfer_decides s uid u r c cr q name db Hget Hblob Hrec Hrblob
               (fits_encodable c q s Hfs)).
    apply Qle_bool_iff in Hq. rewrite Hq. reflexivity.
  - rewrite query_get_set_other by congruence.
    now rewrite query_get_set, Z.eqb_refl, Hget.
  - rewrite query_get_set, Z.eqb_refl, query_get_set_other by exact Hne.
    rewrite (query_get_of_row db r Hnd (first_by_username_found _ _ _ Hrec)).
    reflexivity.
  - destruct (fits_room s c q Hfs) as (_ & Hc & He & _ & Hdiff).
    destruct (fits_room s cr q Hfr) as (_ & Hcr & _ & Hsum & _).
    pose proof (decrypt_sub c (encrypt s q) Hc He Hdiff) as H1.
    pose proof (decrypt_add cr (encrypt s q) Hcr He Hsum) as H2.
    apply Qabs_Qle_condition in H1, H2. unfold debited, credited. qabs_le.
  - now apply debit_close.
  - now apply credit_close.
Qed.

(** X4: within the range of the approximation contract, a withdrawal that
    commits cannot take the account further into the red than half a cent
    plus twice the tolerance: the decrypted balance it leaves is at least
    -(0.005 + 2 tolerance). *)
Theorem withdraw_overdraw_bounded (s : seed) (uid : Z) (u : User) (c : ciphertext)
    (q : Q) (db db' : database) :
  query_get uid db = Some u ->
  encrypted_balance u = Some (serialize c) ->
  fits c q ->
  withdraw s (Some uid) (Finite q) db = Committed db' ->
  exists c',
    query_get uid db' = Some (with_balance (serialize c') u) /\
    - ((1 # 200) + (tolerance + tolerance)) <= decrypt c'.
Proof.
  intros Hget Hblob Hfit.
  rewrite (withdraw_decides s uid u c q db Hget Hblob (fits_encodable c q s Hfit)).
  destruct (Qle_bool q (round2 (decrypt c))) eqn:Hq; [ | discriminate].
  intros [= <-]. apply Qle_bool_iff in Hq.
  exists (ct_sub c (encrypt s q)). split.
  - now rewrite query_get_set, Z.eqb_refl, Hget.
  - pose proof (round2_close (decrypt c)) as H1.
    pose proof (debit_close s c q Hfit) as H2.
    apply Qabs_Qle_condition in H1, H2. lra.
Qed.

Lemma slack_all_bound (rs : list (seed * request)) (db : database) :
  slack_all generate_password_hash rs db
  <= inject_Z (Z.of_nat (List.length rs)) * (tolerance + tolerance).
Proof.
  revert db. induction rs as [ | [s r] rs IH]; intros db.
  - cbn [slack_all List.length Z.of_nat]. change (inject_Z 0) with 0. lra.
  - pose proof (tolerance_nonneg s) as Htol.
    specialize (IH (persisted db (handle generate_password_hash s r db))).
    assert (Hs : slack r (handle generate_password_hash s r db)
                 <= tolerance + tolerance).
    { unfold slack. destruct (handle _ s r db), r; lra. }
    assert (E : inject_Z (Z.of_nat (List.length ((s, r) :: rs))) * (tolerance + tolerance)
                == inject_Z (Z.of_nat (List.length rs)) * (tolerance + tolerance)
                   + (tolerance + tolerance)).
    { cbn [List.length]. rewrite Nat2Z.inj_succ. unfold Z.succ.
      rewrite inject_Z_plus. change (inject_Z 1) with 1. ring. }
    rewrite E. cbn [slack_all]. lra.
Qed.

(** X5: as long as no transfer names its own sender and every request stays
    within the range of the approximation contract, the ledger is conserved
    over any sequence of deposits, withdrawals and transfers, committed or
    not: the total of the decrypted balances ends at the total before plus
    the committed deposits minus the committed withdrawals, within twice the
    tolerance per request. *)
Theorem ledger_conserved_between_accounts (rs : list (seed * request))
    (db : database) :
  ledger_ok db ->
  all_between_accounts generate_password_hash rs db ->
  all_fit generate_password_hash rs db ->
  Qabs (total_balance (replay generate_password_hash rs db)
        - (total_balance db + booked_all generate_password_hash rs db))
    <= inject_Z (Z.of_nat (List.length rs)) * (tolerance + tolerance).
Proof.
  intros Hok Hall Hfit.
  destruct (replay_conserves generate_password_hash rs db Hok Hall Hfit) as [_ H].
  apply Qle_trans with (1 := H). apply slack_all_bound.
Qed.

Lemma round_half_even_near (q : Q) (n : Z) :
  Qabs (q - inject_Z n) < 1 # 2 -> round_half_even q = n.
Proof.
  intros H. apply Qabs_Qlt_condition in H. destruct H as [Hlo Hhi].
  pose proof (Qfloor_le q) as Hfl.
  pose proof (Qlt_floor q) as Hfh.
  rewrite inject_Z_plus in Hfh. change (inject_Z 1) with 1 in Hfh.
  assert (Hf : (Qfloor q = n - 1 \/ Qfloor q = n)%Z).
  { assert (H1 : inject_Z (Qfloor q) < inject_Z n + (1 # 2)) by lra.
    assert (H2 : inject_Z n < inject_Z (Qfloor q) + (3 # 2)) by lra.
    unfold Qlt, Qplus, inject_Z in H1, H2. simpl in H1, H2. lia. }
  unfold round_half_even.
  destruct Hf as [Hf | Hf].
  - assert (HfQ : inject_Z (Qfloor q) == inject_Z n - 1).
    { rewrite Hf. unfold Z.sub. rewrite inject_Z_plus, inject_Z_opp.
      change (inject_Z 1) with 1. ring. }
    destruct (Qcompare (q - inject_Z (Qfloor q)) (1 # 2)) eqn:E.
    + apply Qeq_alt in E. lra.
    + apply Qlt_alt in E. lra.
    + lia.
  - assert (HfQ : inject_Z (Qfloor q) == inject_Z n) by now rewrite Hf.
    destruct (Qcompare (q - inject_Z (Qfloor q)) (1 # 2)) eqn:E.
    + apply Qeq_alt in E. lra.
    + exact Hf.
    + apply Qgt_alt in E. lra.
Qed.

(** X6: an amount that is a whole number of cents, within the range of the
    approximation contract, survives the setter and the getter exactly, as
    soon as the encryption noise stays under half a cent. *)
Theorem balance_round_trip_exact_on_cents (s : seed) (n : Z) (u : User) :
  tolerance < 1 # 200 ->
  Qabs (n # 100) <= limit ->
  exists stored b,
    balance_set s (n # 100) u = Ok stored /\
    balance stored = Ok b /\ b == n # 100.
Proof.
  intros Htol Hn. exists (with_balance (serialize (encrypt s (n # 100))) u).
  exists (round2 (decrypt (encrypt s (n # 100)))). repeat split.
  - unfold balance_set. cbn [ckks_vector]. now rewrite (encodable_in_range _ Hn).
  - now apply balance_of_ciphertext.
  - pose proof (encrypt_close s (n # 100) Hn) as H.
    apply Qabs_Qle_condition in H.
    assert (E : n # 100 == inject_Z n * (1 # 100)).
    { unfold Qeq, inject_Z. simpl. lia. }
    set (x := n # 100) in *.
    rewrite round2_scaled, (round_half_even_near _ n); [lra | ].
    apply Qabs_Qlt_condition. split; lra.
Qed.

End Amounts.

(** ** Sessions *)

Section Sessions.
Context {HE : TenSEAL}.
Variable generate_password_hash : string -> string.
Variable check_password_hash : string -> string -> bool.

Lemma first_by_username_spec (name : string) (db : database) (u : User) :
  query_first_by_username name db = Some u -> In u db /\ username u = name.
Proof.
  unfold query_first_by_username. intros H. apply find_some in H.
  destruct H as [Hin Hname]. split; [exact Hin | now apply String.eqb_eq].
Qed.

Lemma first_by_username_none (name : string) (db : database) :
  query_first_by_username name db = None -> ~ In name (map username db).
Proof.
  unfold query_first_by_username. intros H Hin.
  apply in_map_iff in Hin. destruct Hin as (u & Hname & Hin).
  pose proof (find_none _ _ H u Hin) as Hneq. simpl in Hneq.
  rewrite Hname, String.eqb_refl in Hneq. discriminate.
Qed.

Lemma ids_of_identities (db : database) :
  map id db = map (fun t => fst (fst t)) (identities db).
Proof. unfold identities. rewrite map_map. reflexivity. Qed.

Lemma usernames_of_identities (db : database) :
  map username db = map (fun t => snd (fst t)) (identities db).
Proof. unfold identities. rewrite map_map. reflexivity. Qed.

(** X7: a login never opens a session it should not: either the session is
    left exactly as it was (unknown name or rejected password, an earlier
    login stays in place), or it now holds the key of a row with the
    submitted username whose stored hash accepted the password. *)
Theorem login_grants_only_checked_sessions (name pass : string)
    (su : option Z) (db : database) :
  login check_password_hash name pass su db = su \/
  exists user, In user db /\ username user = name /\
    check_password_hash (password user) pass = true /\
    login check_password_hash name pass su db = Some (id user).
Proof.
  unfold login.
  destruct (query_first_by_username name db) as [user | ] eqn:Hrec; [ | now left].
  destruct (check_password_hash (password user) pass) eqn:Hcheck; [ | now left].
  right. exists user. apply first_by_username_spec in Hrec.
  destruct Hrec as [Hin Hname]. now repeat split.
Qed.

(** X8: registration and login fit together: once a free username is
    registered, logging in with the same name and password opens a session
    on the new row, whose key no other row has, whatever session was there
    before.  The hash check is assumed to accept the password it hashed. *)
Theorem registered_user_can_log_in (s : seed) (name pass : string)
    (su : option Z) (db : database) :
  (forall p, check_password_hash (generate_password_hash p) p = true) ->
  query_first_by_username name db = None ->
  login check_password_hash name pass su
    (persisted db (register generate_password_hash s name pass db))
  = Some (next_id db) /\
  ~ In (next_id db) (map id db).
Proof.
  intros Hcheck Hfree. split.
  - rewrite (register_free generate_password_hash s name pass db Hfree).
    cbn [persisted]. unfold login.
    rewrite first_by_username_app by (exact Hfree || reflexivity).
    cbn [password id]. now rewrite Hcheck.
  - intros Hin. apply ids_below_next in Hin. lia.
Qed.

Lemma serve_keeps_world_ok (client : nat) (s : seed) (h : http) (w : world) :
  world_ok w -> world_ok (serve generate_password_hash check_password_hash client s h w).
Proof.
  intros (Hok & Hnames & Hsess).
  assert (Hledger : forall db',
             ledger_ok db' -> identities db' = identities (table w) ->
             world_ok (set_table db' w)).
  { intros db' Hok' Hid. split; [exact Hok' | split].
    - cbn [table set_table]. now rewrite usernames_of_identities, Hid, <- usernames_of_identities.
    - cbn [table set_table cookies]. intros c uid Hc.
      rewrite ids_of_identities, Hid, <- ids_of_identities. now apply (Hsess c). }
  destruct h as [name pass | name pass | | amount name | amount | amount];
    unfold serve.
  - split; [now apply register_keeps_ledger | split].
    + cbn [table set_table].
      destruct (query_first_by_username name (table w)) eqn:Hfree;
        [unfold register; rewrite Hfree; exact Hnames | ].
      rewrite (register_free generate_password_hash s name pass _ Hfree).
      cbn [persisted]. rewrite map_app. cbn [map username].
      apply NoDup_app; [exact Hnames | repeat constructor; intros [] | ].
      intros n Hin [<- | []]. now apply first_by_username_none in Hfree.
    + cbn [table set_table cookies]. intros c uid Hc. specialize (Hsess c uid Hc).
      destruct (query_first_by_username name (table w)) eqn:Hfree;
        [unfold register; rewrite Hfree; exact Hsess | ].
      rewrite (register_free generate_password_hash s name pass _ Hfree).
      cbn [persisted]. rewrite map_app. apply in_or_app. now left.
  - split; [exact Hok | split; [exact Hnames | ]].
    cbn [table set_cookie cookies]. intros c uid.
    destruct (Nat.eqb c client); [ | apply Hsess].
    unfold login.
    destruct (query_first_by_username name (table w)) as [user | ] eqn:Hrec;
      [ | apply Hsess].
    destruct (check_password_hash (password user) pass); [ | apply Hsess].
    intros [= <-]. apply in_map. now apply first_by_username_spec in Hrec.
  - split; [exact Hok | split; [exact Hnames | ]].
    cbn [table set_cookie cookies]. intros c uid.
    destruct (Nat.eqb c client); [discriminate | apply Hsess].
  - apply Hledger; [now apply transfer_keeps_ledger | apply transfer_identities].
  - apply Hledger; [now apply deposit_keeps_ledger | apply deposit_identities].
  - apply Hledger; [now apply withdraw_keeps_ledger | apply withdraw_identities].
Qed.

Lemma browse_keeps_world_ok (trace : list (nat * seed * http)) (w : world) :
  world_ok w -> world_ok (browse generate_password_hash check_password_hash trace w).
Proof.
  revert w. induction trace as [ | [[client s] h] trace IH]; intros w Hok;
    [exact Hok | ].
  simpl. apply IH. now apply serve_keeps_world_ok.
Qed.

Lemma reached_ok (trace : list (nat * seed * http)) :
  world_ok (browse generate_password_hash check_password_hash trace start).
Proof.
  apply browse_keeps_world_ok. repeat split; try constructor.
  intros client uid. discriminate.
Qed.

(** X9: whatever the browsers did since the table was created, the keys are
    pairwise different, so are the usernames, every row holds a serialized
    ciphertext, and every open session names a row of the table. *)
Theorem reachable_world_ok (trace : list (nat * seed * http)) :
  let w := browse generate_password_hash check_password_hash trace start in
  NoDup (map id (table w)) /\
  NoDup (map username (table w)) /\
  (forall u, In u (table w) -> exists c, encrypted_balance u = Some (serialize c)) /\
  (forall client uid, cookies w client = Some uid ->
     exists u, In u (table w) /\ id u = uid).
Proof.
  intros w. destruct (reached_ok trace) as ((Hnd & Hct) & Hnames & Hsess).
  fold w in Hnd, Hct, Hnames, Hsess. repeat split; try assumption.
  - intros u Hin. rewrite Forall_forall in Hct. exact (Hct u Hin).
  - intros client uid Hc. specialize (Hsess client uid Hc).
    apply in_map_iff in Hsess. destruct Hsess as (u & Hid & Hin). now exists u.
Qed.

End Sessions.

(** ** What a reachable world rules out *)

Section Reached.
Context {HE : TenSEAL}.
Variable generate_password_hash : string -> string.
Variable check_password_hash : string -> string -> bool.

Lemma session_row (w : world) (client : nat) (uid : Z) :
  world_ok w ->
  cookies w client = Some uid ->
  exists u c, query_get uid (table w) = Some u /\
              encrypted_balance u = Some (serialize c).
Proof.
  intros (Hok & _ & Hsess) Hc. specialize (Hsess client uid Hc).
  apply in_map_iff in Hsess. destruct Hsess as (u & <- & Hin).
  destruct (row_ciphertext _ u Hok Hin) as [c Hblob].
  exists u, c. split; [ | exact Hblob].
  now apply query_get_of_row; [apply Hok | ].
Qed.

(** X10: a session always belongs to a user that is there: in every world
    reached from the start, the dashboard of a logged-in browser shows the
    row with the session's key, and that row's balance reads without error
    as the rounded decryption of its blob. *)
Theorem dashboard_shows_session_user (trace : list (nat * seed * http))
    (client : nat) (uid : Z) :
  let w := browse generate_password_hash check_password_hash trace start in
  cookies w client = Some uid ->
  exists u c,
    dashboard (cookies w client) (table w) = DashboardPage (Some u) /\
    id u = uid /\
    encrypted_balance u = Some (serialize c) /\
    balance u = Ok (round2 (decrypt c)).
Proof.
  intros w Hc.
  destruct (session_row w client uid
              (reached_ok generate_password_hash check_password_hash trace) Hc)
    as (u & c & Hget & Hblob).
  exists u, c. rewrite Hc. cbn [dashboard]. rewrite Hget.
  repeat split.
  - now apply query_get_found in Hget.
  - exact Hblob.
  - now apply balance_of_ciphertext.
Qed.

(** X11: in every world reached from the start, a request with a finite
    amount that the context encodes never ends in an exception, whoever
    sends it: the session's row and the recipient's row exist and hold
    ciphertexts whenever the code reads them.  A logged-in deposit of such
    an amount always commits. *)
Theorem finite_requests_never_crash (trace : list (nat * seed * http))
    (client : nat) (s : seed) (q : Q) (name : string) :
  encodable q = true ->
  let w := browse generate_password_hash check_password_hash trace start in
  (forall e, deposit s (cookies w client) (Finite q) (table w) <> Crashed e) /\
  (forall e, withdraw s (cookies w client) (Finite q) (table w) <> Crashed e) /\
  (forall e, transfer s (cookies w client) (Finite q) name (table w) <> Crashed e) /\
  (forall uid, cookies w client = Some uid ->
     exists db', deposit s (cookies w client) (Finite q) (table w) = Committed db').
Proof.
  intros Henc w.
  pose proof (reached_ok generate_password_hash check_password_hash trace)
    as Hw. fold w in Hw.
  destruct (cookies w client) as [uid | ] eqn:Hc.
  - destruct (session_row w client uid Hw Hc) as (u & c & Hget & Hblob).
    repeat split.
    + intros e. now rewrite (deposit_commits s uid u c q _ Hget Hblob Henc).
    + intros e. rewrite (withdraw_decides s uid u c q _ Hget Hblob Henc).
      now destruct (Qle_bool q (round2 (decrypt c))).
    + intros e.
      destruct (query_first_by_username name (table w)) as [r | ] eqn:Hrec.
      * destruct (row_ciphertext _ r (proj1 Hw) (first_by_username_found _ _ _ Hrec))
          as [cr Hrblob].
        rewrite (transfer_decides s uid u r c cr q name _ Hget Hblob Hrec Hrblob Henc).
        now destruct (Qle_bool q (round2 (decrypt c))).
      * unfold transfer. now rewrite Hrec.
    + intros uid' _. rewrite (deposit_commits s uid u c q _ Hget Hblob Henc).
      now eexists.
  - repeat split; discriminate.
Qed.

(** X12: after a logout the browser is out: its dashboard redirects to the
    login page, its deposits, withdrawals and transfers write nothing, and
    the sessions of the other browsers are untouched. *)
Theorem logged_out_client_cannot_write (client : nat) (s s' : seed)
    (amount : pyfloat) (name : string) (w : world) :
  let w' := serve generate_password_hash check_password_hash client s GetLogout w in
  let after h := serve generate_password_hash check_password_hash client s' h w' in
  dashboard (cookies w' client) (table w') = RedirectLogin /\
  table (after (PostDeposit amount)) = table w /\
  table (after (PostWithdraw amount)) = table w /\
  table (after (PostTransfer amount name)) = table w /\
  (forall other, other <> client -> cookies w' other = cookies w other).
Proof.
  intros w' after. unfold after, w', serve.
  cbn [cookies table set_cookie set_table logout].
  rewrite Nat.eqb_refl. repeat split.
  intros other Hne. apply Nat.eqb_neq in Hne. now rewrite Hne.
Qed.

End Reached.

Section Display.
Context {HE : TenSEAL}.

(** X13: what the user sees after a deposit: within the range of the
    approximation contract, the balance read from the row once a deposit is
    committed is the old decrypted balance plus the amount, up to twice the
    tolerance and the half cent of the getter's rounding. *)
Theorem balance_after_deposit (s : seed) (uid : Z) (u : User) (c : ciphertext)
    (q : Q) (db : database) :
  query_get uid db = Some u ->
  encrypted_balance u = Some (serialize c) ->
  fits c q ->
  exists u' b,
    query_get uid (persisted db (deposit s (Some uid) (Finite q) db)) = Some u' /\
    balance u' = Ok b /\
    Qabs (b - (decrypt c + q)) <= tolerance + tolerance + (1 # 200).
Proof.
  intros Hget Hblob Hfit.
  rewrite (deposit_commits s uid u c q db Hget Hblob (fits_encodable c q s Hfit)).
  cbn [persisted].
  exists (with_balance (serialize (ct_add c (encrypt s q))) u).
  exists (round2 (decrypt (ct_add c (encrypt s q)))).
  repeat split.
  - now rewrite query_get_set, Z.eqb_refl, Hget.
  - now apply balance_of_ciphertext.
  - pose proof (round2_close (decrypt (ct_add c (encrypt s q)))) as H1.
    pose proof (credit_close s c q Hfit) as H2.
    apply Qabs_Qle_condition in H1, H2. qabs_le.
Qed.

End Display.

(** ** The added properties on the concrete instance *)

Lemma ledger_requests_touch_only_their_rows_witness :
  query_get 2
    (persisted (Plain.two_accounts 100 0)
       (deposit (HE := Plain.scheme) 100%Z (Some 1%Z) (Finite 10)
          (Plain.two_accounts 100 0))) =
  Some (Plain.row 2 "bob" 0).
Proof.
  exact (proj1 (ledger_requests_touch_only_their_rows (HE := Plain.scheme)
                  100%Z 1%Z 2%Z (Finite 10) "alice" (Plain.two_accounts 100 0)
                  ltac:(discriminate))).
Defined.

Lemma plain_two_accounts_ok (a b : Q) :
  ledger_ok (HE := Plain.scheme) (Plain.two_accounts a b).
Proof.
  split.
  - repeat constructor; simpl; intuition discriminate.
  - repeat constructor; [now exists a | now exists b].
Defined.

Lemma transfer_moves_amount_witness :
  exists db',
    transfer (HE := Plain.scheme) 0%Z (Some 1%Z) (Finite 40) "bob"
      (Plain.two_accounts 100 0) = Committed db' /\
    query_get 1 db' = Some (Plain.row 1 "alice" (600001 # 10000)) /\
    query_get 2 db' = Some (Plain.row 2 "bob" (399999 # 10000)).
Proof.
  destruct (transfer_moves_amount (HE := Plain.scheme) 0%Z 1%Z
              (Plain.row 1 "alice" 100) (Plain.row 2 "bob" 0) 100 0 40 "bob"
              (Plain.two_accounts 100 0)
              (proj1 (plain_two_accounts_ok 100 0)) eq_refl eq_refl eq_refl eq_refl
              ltac:(discriminate) ltac:(now vm_compute)
              ltac:(now vm_compute) ltac:(now vm_compute))
    as (db' & Ht & Hs & Hr & _).
  exists db'. repeat split; assumption.
Defined.

Lemma withdraw_overdraw_bounded_witness :
  exists c',
    query_get 1 (Plain.two_accounts (- (1 # 250)) 0) =
      Some (with_balance (serialize (TenSEAL := Plain.scheme) c')
              (Plain.row 1 "alice" (99996 # 1000))) /\
    - ((1 # 200) + ((1 # 10000) + (1 # 10000)))
      <= decrypt (TenSEAL := Plain.scheme) c'.
Proof.
  exact (withdraw_overdraw_bounded (HE := Plain.scheme) 100%Z 1%Z
           (Plain.row 1 "alice" (99996 # 1000)) (99996 # 1000) 100
           (Plain.two_accounts (99996 # 1000) 0)
           (Plain.two_accounts (- (1 # 250)) 0) eq_refl eq_refl
           ltac:(now vm_compute) eq_refl).
Defined.

Lemma ledger_conserved_between_accounts_witness :
  Qabs (total_balance (HE := Plain.scheme)
          (replay (HE := Plain.scheme) Plain.hash
             [(0%Z, Deposit (Some 1%Z) (Finite 100));
              (7%Z, Transfer (Some 1%Z) (Finite 40) "bob");
              (200%Z, Withdraw (Some 1%Z) (Finite 30))]
             (Plain.two_accounts 0 0)) - 70)
    <= 6 # 10000.
Proof.
  refine (ledger_conserved_between_accounts (HE := Plain.scheme) Plain.hash
            [(0%Z, Deposit (Some 1%Z) (Finite 100));
             (7%Z, Transfer (Some 1%Z) (Finite 40) "bob");
             (200%Z, Withdraw (Some 1%Z) (Finite 30))]
            (Plain.two_accounts 0 0) (plain_two_accounts_ok 0 0) _ _).
  - repeat split. intros u [= <-]. discriminate.
  - repeat split; try (intros u [= <-]);
      (eapply (row_fits_intro (HE := Plain.scheme));
       [reflexivity | reflexivity | now vm_compute]).
Defined.

Lemma balance_round_trip_exact_on_cents_witness :
  exists stored b,
    balance_set (HE := Plain.scheme) 0%Z (1234 # 100) (Plain.row 1 "alice" 0)
      = Ok stored /\
    balance (HE := Plain.scheme) stored = Ok b /\ b == 1234 # 100.
Proof.
  exact (balance_round_trip_exact_on_cents (HE := Plain.scheme) 0%Z 1234
           (Plain.row 1 "alice" 0) eq_refl ltac:(now vm_compute)).
Defined.

Lemma finite_requests_never_crash_witness :
  exists db',
    deposit (HE := Plain.scheme) 100%Z (Some 1%Z) (Finite 10)
      (Plain.two_accounts 0 0) = Committed db'.
Proof.
  exact (proj2 (proj2 (proj2
           (finite_requests_never_crash (HE := Plain.scheme) Plain.hash Plain.check
              [(0%nat, 100%Z, PostRegister "alice" "pw");
               (1%nat, 100%Z, PostRegister "bob" "pw");
               (0%nat, 100%Z, PostLogin "alice" "pw")]
              0%nat 100%Z 10 "bob" eq_refl))) 1%Z eq_refl).
Defined.

Lemma registered_user_can_log_in_witness :
  login Plain.check "carol" "pw" (Some 1%Z)
    (persisted (Plain.two_accounts 100 0)
       (register (HE := Plain.scheme) Plain.hash 0%Z "carol" "pw"
          (Plain.two_accounts 100 0))) = Some 3%Z.
Proof.
  exact (proj1 (registered_user_can_log_in (HE := Plain.scheme) Plain.hash Plain.check
                  0%Z "carol" "pw" (Some 1%Z) (Plain.two_accounts 100 0)
                  String.eqb_refl eq_refl)).
Defined.

Lemma dashboard_shows_session_user_witness :
  exists u c,
    dashboard (Some 1%Z) (Plain.two_accounts 0 0) = DashboardPage (Some u) /\
    id u = 1%Z /\
    encrypted_balance u = Some (serialize (TenSEAL := Plain.scheme) c) /\
    balance (HE := Plain.scheme) u = Ok (round2 (decrypt (TenSEAL := Plain.scheme) c)).
Proof.
  exact (dashboard_shows_session_user (HE := Plain.scheme) Plain.hash Plain.check
           [(0%nat, 100%Z, PostRegister "alice" "pw");
            (1%nat, 100%Z, PostRegister "bob" "pw");
            (0%nat, 100%Z, PostLogin "alice" "pw")]
           0%nat 1%Z eq_refl).
Defined.

Lemma balance_after_deposit_witness :
  exists u' b,
    query_get 1
      (persisted (Plain.two_accounts 100 0)
         (deposit (HE := Plain.scheme) 0%Z (Some 1%Z) (Finite (5 # 2))
            (Plain.two_accounts 100 0))) = Some u' /\
    balance (HE := Plain.scheme) u' = Ok b /\
    Qabs (b - (100 + (5 # 2))) <= (1 # 10000) + (1 # 10000) + (1 # 200).
Proof.
  exact (balance_after_deposit (HE := Plain.scheme) 0%Z 1%Z
           (Plain.row 1 "alice" 100) 100 (5 # 2) (Plain.two_accounts 100 0)
           eq_refl eq_refl ltac:(now vm_compute)).
Defined.
